(** * session-store-js: the store engines and their expiration strategy

    A shallow embedding of [src/storages/memoryStore.js] and of the read
    path of [src/storages/fileStore.js].

    Conventions of the embedding.
    - Time is the millisecond count returned by [Date.now()], an integer
      ([Z]).  Every operation takes the clock reading [now] as an argument;
      an operation that reads the clock once per visited entry ([all],
      [rebuildIndex]) is modelled at one instant, as the operations run to
      completion without yielding.
    - A JavaScript [Map] is an association list in insertion order without
      repeated keys ([JSMap]): [set] on a present key updates the value in
      place, on a fresh key appends; iteration follows the list.
    - A callback invocation is the [Reply] an operation returns, next to
      the store it leaves behind. *)

From Stdlib Require Import ZArith List String Bool Lia Sorted.
From Stdlib Require DecimalString.
Import ListNotations.
Open Scope string_scope.
Open Scope list_scope.
Open Scope Z_scope.

(** ** Keys with a decidable equality (the keys of a [Map]) *)

Class EqKey (K : Type) := {
  keqb : K -> K -> bool;
  keqb_spec : forall a b : K, reflect (a = b) (keqb a b)
}.

#[export] Instance EqKey_Z : EqKey Z :=
  {| keqb := Z.eqb; keqb_spec := Z.eqb_spec |}.

#[export] Instance EqKey_string : EqKey string :=
  {| keqb := String.eqb; keqb_spec := String.eqb_spec |}.

(** ** The insertion-ordered [Map] of JavaScript *)

Module JSMap.

Section Defs.
Context {K V : Type} `{EqKey K}.

Definition t := list (K * V).

Definition empty : t := [].

(** [m.get(k)] *)
Fixpoint get (k : K) (m : t) : option V :=
  match m with
  | [] => None
  | (k', v) :: rest => if keqb k k' then Some v else get k rest
  end.

(** [m.has(k)] *)
Definition has (k : K) (m : t) : bool :=
  match get k m with Some _ => true | None => false end.

(** [m.set(k, v)]: a present key keeps its place, a new key goes last. *)
Fixpoint set (k : K) (v : V) (m : t) : t :=
  match m with
  | [] => [(k, v)]
  | (k', v') :: rest =>
      if keqb k k' then (k', v) :: rest else (k', v') :: set k v rest
  end.

(** [m.delete(k)] *)
Fixpoint delete (k : K) (m : t) : t :=
  match m with
  | [] => []
  | (k', v') :: rest =>
      if keqb k k' then delete k rest else (k', v') :: delete k rest
  end.

(** [m.size] *)
Definition size (m : t) : nat := List.length m.

Definition keys (m : t) : list K := map fst m.

(** The representation invariant: a key occurs once. *)
Definition wf (m : t) : Prop := NoDup (keys m).

End Defs.

Arguments t : clear implicits.

End JSMap.


(** ** JavaScript values and session payloads *)

(** The values a payload can hold, and the documents [JSON.parse] yields.
    [JDate None] is an invalid date. *)
#[local] Set Warnings "-register-all".
Inductive JsValue : Type :=
| JUndefined
| JNull
| JBool (b : bool)
| JNum (n : Z)
| JStr (s : string)
| JDate (time : option Z)
| JArr (items : list JsValue)
| JObj (props : list (string * JsValue)).

(** A session payload: the own enumerable properties of a plain object, in
    property order. *)
Definition Payload := JSMap.t string JsValue.

(** [{...session}]: a new object that receives the properties of [session]
    one by one. *)
Definition spread (session : Payload) : Payload :=
  fold_left (fun acc kv => JSMap.set (fst kv) (snd kv) acc) session JSMap.empty.

(** What an operation passes to its callback: [callback()] and
    [callback(null)] carry neither an error nor a value, [callback(null, a)]
    carries a value, [callback(new Error(msg))] an error. *)
Inductive Reply (A : Type) : Type :=
| NoValue
| Value (a : A)
| Failure (msg : string).

Arguments NoValue {A}.
Arguments Value {A} a.
Arguments Failure {A} msg.

(** * The memory backend ([src/storages/memoryStore.js]) *)

Module MemoryStore.

(** The value of the primary map: [{ data, expires }]. *)
Record SessionData := mkSessionData {
  data : Payload;
  expires : Z
}.

(** The fields of the class that the operations read and write. The two
    timer ids only schedule [cleanupSessions] and [rebuildIndex]. *)
Record t := mkStore {
  sessions : JSMap.t string SessionData;
  expirationIndex : JSMap.t Z string;
  maxAge : Z
}.

(** [options.maxAge || 86400000] *)
Definition maxAge_option (o : option Z) : Z :=
  match o with
  | Some m => if m =? 0 then 86400000 else m
  | None => 86400000
  end.

(** [constructor(options)] *)
Definition new (o : option Z) : t :=
  {| sessions := JSMap.empty;
     expirationIndex := JSMap.empty;
     maxAge := maxAge_option o |}.

(** [set(sid, session, callback)] *)
Definition set (sid : string) (session : Payload) (now : Z) (st : t)
  : t * Reply unit :=
  let expires := now + maxAge st in
  ({| sessions :=
        JSMap.set sid {| data := spread session; expires := expires |}
                  (sessions st);
      expirationIndex := JSMap.set expires sid (expirationIndex st);
      maxAge := maxAge st |},
   NoValue).

(** [destroy(sid, callback)] *)
Definition destroy (sid : string) (st : t) : t * Reply unit :=
  match JSMap.get sid (sessions st) with
  | Some sessionData =>
      ({| sessions := JSMap.delete sid (sessions st);
          expirationIndex :=
            JSMap.delete (expires sessionData) (expirationIndex st);
          maxAge := maxAge st |},
       NoValue)
  | None => (st, NoValue)
  end.

(** [get(sid, callback)]: a miss when there is no entry or
    [Date.now() > sessionData.expires]. *)
Definition get (sid : string) (now : Z) (st : t) : t * Reply Payload :=
  match JSMap.get sid (sessions st) with
  | None => (st, NoValue)
  | Some sessionData =>
      if expires sessionData <? now
      then (fst (destroy sid st), NoValue)
      else (st, Value (data sessionData))
  end.

(** [all(callback)] *)
Definition all (now : Z) (st : t) : t * Reply (list (string * Payload)) :=
  (st,
   Value (map (fun e => (fst e, data (snd e)))
              (filter (fun e => now <? expires (snd e)) (sessions st)))).

(** [length(callback)] *)
Definition length (st : t) : t * Reply nat :=
  (st, Value (JSMap.size (sessions st))).

(** [clear(callback)] *)
Definition clear (st : t) : t * Reply unit :=
  ({| sessions := JSMap.empty;
      expirationIndex := JSMap.empty;
      maxAge := maxAge st |},
   NoValue).

(** [touch(sid, session, callback)]: the record object is updated in place
    and keeps its position in the primary map. *)
Definition touch (sid : string) (session : Payload) (now : Z) (st : t)
  : t * Reply unit :=
  match JSMap.get sid (sessions st) with
  | Some sessionData =>
      let oldExpires := expires sessionData in
      let newExpires := now + maxAge st in
      ({| sessions :=
            JSMap.set sid {| data := session; expires := newExpires |}
                      (sessions st);
          expirationIndex :=
            JSMap.set newExpires sid
                      (JSMap.delete oldExpires (expirationIndex st));
          maxAge := maxAge st |},
       NoValue)
  | None => (st, NoValue)
  end.

(** The body of the [for ... of this.expirationIndex] loop of
    [cleanupSessions]. [pending] holds the entries the iterator has not
    reached; an entry deleted from the index before the iterator reaches it
    is passed over, as a [Map] iterator does. Nothing is added to the index
    during the loop. *)
Fixpoint cleanup_loop (now : Z) (pending : list (Z * string)) (st : t) : t :=
  match pending with
  | [] => st
  | (expires, sid) :: rest =>
      if JSMap.has expires (expirationIndex st) then
        if expires <=? now then
          let st1 := fst (destroy sid st) in
          cleanup_loop now rest
            {| sessions := sessions st1;
               expirationIndex := JSMap.delete expires (expirationIndex st1);
               maxAge := maxAge st1 |}
        else st
      else cleanup_loop now rest st
  end.

(** [cleanupSessions()] *)
Definition cleanupSessions (now : Z) (st : t) : t :=
  cleanup_loop now (expirationIndex st) st.

(** The body of the [for ... of this.sessions] loop of [rebuildIndex]: only
    the entry under the iterator is ever deleted, so the iterator visits
    every entry of the map as it was when the loop started. *)
Fixpoint rebuild_loop (now : Z) (pending : list (string * SessionData))
  (ss : JSMap.t string SessionData) (newIndex : JSMap.t Z string)
  : JSMap.t string SessionData * JSMap.t Z string :=
  match pending with
  | [] => (ss, newIndex)
  | (sid, sessionData) :: rest =>
      if now <? expires sessionData
      then rebuild_loop now rest ss (JSMap.set (expires sessionData) sid newIndex)
      else rebuild_loop now rest (JSMap.delete sid ss) newIndex
  end.

(** [rebuildIndex()] *)
Definition rebuildIndex (now : Z) (st : t) : t :=
  let '(ss, newIndex) :=
    rebuild_loop now (sessions st) (sessions st) JSMap.empty in
  {| sessions := ss; expirationIndex := newIndex; maxAge := maxAge st |}.

(** One call on the store, as a caller or a timer issues it. *)
Inductive Op : Type :=
| OpSet (sid : string) (session : Payload)
| OpGet (sid : string)
| OpDestroy (sid : string)
| OpTouch (sid : string) (session : Payload)
| OpAll
| OpLength
| OpClear
| OpCleanup
| OpRebuild.

(** The store a call leaves behind when it runs at clock reading [now]. *)
Definition step (op : Op) (now : Z) (st : t) : t :=
  match op with
  | OpSet sid session => fst (set sid session now st)
  | OpGet sid => fst (get sid now st)
  | OpDestroy sid => fst (destroy sid st)
  | OpTouch sid session => fst (touch sid session now st)
  | OpAll => fst (all now st)
  | OpLength => fst (length st)
  | OpClear => fst (clear st)
  | OpCleanup => cleanupSessions now st
  | OpRebuild => rebuildIndex now st
  end.

(** A sequence of calls, each with the clock reading it runs at. *)
Fixpoint run (calls : list (Z * Op)) (st : t) : t :=
  match calls with
  | [] => st
  | (now, op) :: rest => run rest (step op now st)
  end.

(** The clock readings of a sequence of calls never go back, and start at
    or after [t0]. *)
Fixpoint clock_monotone (t0 : Z) (calls : list (Z * Op)) : Prop :=
  match calls with
  | [] => True
  | (now, _) :: rest => t0 <= now /\ clock_monotone now rest
  end.

(** The stored expiration time of [sid], when it has a record. *)
Definition expires_of (sid : string) (st : t) : option Z :=
  option_map expires (JSMap.get sid (sessions st)).

(** Both maps satisfy the representation invariant of a [Map]. *)
Definition wf (st : t) : Prop :=
  JSMap.wf (sessions st) /\ JSMap.wf (expirationIndex st).

End MemoryStore.


(** * The file backend, read path ([src/storages/fileStore.js]) *)

(** What the file backend asks of Node and of the JavaScript runtime.
    - [readFile p fs]: the text of the file at [p], or the [code] of the
      error [fs.readFile] rejects with;
    - [unlink p fs]: the file system after [fs.unlink], and the [code] of the
      error when it rejects;
    - [path_join]: [path.join];
    - [JSON_parse]: [None] when [JSON.parse] throws;
    - [Date_of v]: the time value of [new Date(v)], [None] for an invalid
      date. *)
Class NodeRuntime := {
  FS : Type;
  readFile : string -> FS -> string + string;
  unlink : string -> FS -> FS * option string;
  path_join : string -> string -> string;
  JSON_parse : string -> option JsValue;
  Date_of : JsValue -> option Z
}.

Module FileStore.

(** [this.path] and [this.ttl] *)
Record t := mkStore {
  path : string;
  ttl : Z
}.

(** The truth value of a JavaScript value in a condition. *)
Definition truthy (v : JsValue) : bool :=
  match v with
  | JUndefined | JNull => false
  | JBool b => b
  | JNum n => negb (n =? 0)
  | JStr s => negb (String.eqb s EmptyString)
  | JDate _ | JArr _ | JObj _ => true
  end.

(** [v.k]: [None] is the [TypeError] of a property read on [null] or
    [undefined]; a missing property reads as [undefined]. *)
Definition prop (v : JsValue) (k : string) : option JsValue :=
  match v with
  | JUndefined | JNull => None
  | JObj props =>
      match JSMap.get k props with
      | Some x => Some x
      | None => Some JUndefined
      end
  | _ => Some JUndefined
  end.

(** [v.k = x] on an object. *)
Definition with_prop (v : JsValue) (k : string) (x : JsValue) : JsValue :=
  match v with
  | JObj props => JObj (JSMap.set k x props)
  | _ => v
  end.

(** [new Date(v) <= new Date()], false for an invalid date. *)
Definition date_le {rt : NodeRuntime} (v : JsValue) (now : Z) : bool :=
  match Date_of v with
  | Some time => time <=? now
  | None => false
  end.

Section Operations.
Context {rt : NodeRuntime}.

(** [_getFilePath(sid)] *)
Definition getFilePath (store : t) (sid : string) : string :=
  path_join (path store) (sid ++ ".json").

(** [destroy(sid, callback)] *)
Definition destroy (sid : string) (store : t) (fs : FS) : FS * Reply unit :=
  let '(fs', rejected) := unlink (getFilePath store sid) fs in
  match rejected with
  | None => (fs', NoValue)
  | Some code =>
      if String.eqb code "ENOENT"
      then (fs', NoValue)
      else (fs', Failure "Failed to destroy session")
  end.

(** The [else] branch of [get]: the cookie's expiry is turned back into a
    date and the payload is handed to the callback. [None] when a property
    read throws. *)
Definition revive (sessionData : JsValue) : option JsValue :=
  match prop sessionData "session" with
  | None => None
  | Some session =>
      match prop session "cookie" with
      | None => None
      | Some cookie =>
          if truthy cookie then
            match prop cookie "expires" with
            | None => None
            | Some cookieExpires =>
                if truthy cookieExpires
                then Some (with_prop session "cookie"
                             (with_prop cookie "expires"
                                (JDate (Date_of cookieExpires))))
                else Some session
            end
          else Some session
      end
  end.

(** The [try] block of [get], after [JSON.parse] has returned. [None] when
    it throws. *)
Definition get_parsed (sid : string) (now : Z) (store : t) (fs : FS)
  (sessionData : JsValue) : option (FS * Reply JsValue) :=
  match prop sessionData "expires" with
  | None => None
  | Some recordExpires =>
      if truthy recordExpires && date_le recordExpires now
      then Some (fst (destroy sid store fs), NoValue)
      else option_map (fun session => (fs, Value session)) (revive sessionData)
  end.

(** [get(sid, callback)] *)
Definition get (sid : string) (now : Z) (store : t) (fs : FS)
  : FS * Reply JsValue :=
  match readFile (getFilePath store sid) fs with
  | inl data =>
      match JSON_parse data with
      | None => (fs, Failure "Failed to parse session data")
      | Some sessionData =>
          match get_parsed sid now store fs sessionData with
          | Some outcome => outcome
          | None => (fs, Failure "Failed to parse session data")
          end
      end
  | inr code =>
      if String.eqb code "ENOENT"
      then (fs, NoValue)
      else (fs, Failure "Failed to read session data")
  end.

End Operations.

End FileStore.


(** * Sample stores and call sequences *)

Module Samples.
Import MemoryStore.

Definition payload_a : Payload := [("a", JNum 1)].
Definition payload_b : Payload := [("b", JNum 2)].

(** [new MemoryStore({ maxAge: 100 })] *)
Definition store100 : MemoryStore.t := new (Some 100).

(** ["s1"] set at time 0. *)
Definition one_record : MemoryStore.t :=
  run [(0, OpSet "s1" payload_a)] store100.

(** ["s1"] set at time 0, ["s2"] at time 1. *)
Definition two_records : MemoryStore.t :=
  run [(0, OpSet "s1" payload_a); (1, OpSet "s2" payload_b)] store100.

(** ["s1"] and ["s2"] set within the same millisecond. *)
Definition same_instant : MemoryStore.t :=
  run [(0, OpSet "s1" payload_a); (0, OpSet "s2" payload_b)] store100.

(** ["s1"] and ["s2"] set within the same millisecond, ["s2"] set again
    later. *)
Definition same_instant_refreshed : MemoryStore.t :=
  run [(0, OpSet "s1" payload_a); (0, OpSet "s2" payload_b);
       (50, OpSet "s2" payload_b)] store100.

(** ["s1"] is set, then ["s2"], then ["s1"] again: the index keeps the
    first entry of ["s1"]. *)
Definition stale_index : MemoryStore.t :=
  run [(0, OpSet "s1" payload_a); (1, OpSet "s2" payload_b);
       (5, OpSet "s1" payload_a)] store100.

(** ["s1"] is set, then ["s2"], then ["s1"] again, and the index is
    rebuilt. *)
Definition refreshed_calls : list (Z * Op) :=
  [(0, OpSet "s1" payload_a); (1, OpSet "s2" payload_b);
   (5, OpSet "s1" payload_a); (6, OpRebuild)].

Definition refreshed : MemoryStore.t := run refreshed_calls store100.

End Samples.


(** * A small runtime for the examples of the file backend *)

Module SampleRuntime.

(** A directory: a path leads to the text of a file, or to the error code
    that reading it raises. *)
Definition disk := JSMap.t string (string + string).

Definition disk_readFile (p : string) (d : disk) : string + string :=
  match JSMap.get p d with
  | Some node => node
  | None => inr "ENOENT"
  end.

Definition disk_unlink (p : string) (d : disk) : disk * option string :=
  match JSMap.get p d with
  | Some _ => (JSMap.delete p d, None)
  | None => (d, Some "ENOENT")
  end.

Definition join (dir file : string) : string := dir ++ "/" ++ file.

(** The record of ["s1"], due at time 100, as [JSON.parse] returns it. *)
Definition record_s1 : JsValue :=
  JObj [("sid", JStr "s1");
        ("session", JObj [("a", JNum 1); ("cookie", JNull)]);
        ("expires", JStr "1970-01-01T00:00:00.100Z")].

(** [JSON.parse] on the texts of the examples. *)
Definition parse (text : string) : option JsValue :=
  if String.eqb text "record of s1" then Some record_s1 else None.

(** [new Date(v)] on the values of the examples. *)
Definition date_of (v : JsValue) : option Z :=
  match v with
  | JNum n => Some n
  | JStr iso =>
      if String.eqb iso "1970-01-01T00:00:00.100Z" then Some 100 else None
  | JDate time => time
  | _ => None
  end.

#[export] Instance runtime : NodeRuntime :=
  {| FS := disk;
     readFile := disk_readFile;
     unlink := disk_unlink;
     path_join := join;
     JSON_parse := parse;
     Date_of := date_of |}.

Definition store : FileStore.t := {| FileStore.path := "sessions"; FileStore.ttl := 86400 |}.

(** A session file, a file that is not a record, and a file that cannot be
    read. *)
Definition sample_disk : disk :=
  [("sessions/s1.json", inl "record of s1");
   ("sessions/torn.json", inl "{");
   ("sessions/locked.json", inr "EACCES")].

End SampleRuntime.




(** * The two timers of the memory backend ([src/storages/memoryStore.js]) *)

#[export] Instance EqKey_nat : EqKey nat :=
  {| keqb := Nat.eqb; keqb_spec := Nat.eqb_spec |}.

Module MemoryTimers.

(** The callbacks the store hands to [setInterval]:
    [() => this.cleanupSessions()] and [() => this.rebuildIndex()]. *)
Inductive Task : Type := RunCleanup | RunRebuild.

(** The interval timers of the runtime: the handle the next [setInterval]
    returns, and the armed timers with their callback and period. *)
Record Timers := mkTimers {
  next_id : nat;
  armed : JSMap.t nat (Task * Z)
}.

(** [setInterval(task, period)] *)
Definition setInterval (task : Task) (period : Z) (tm : Timers)
  : Timers * nat :=
  ({| next_id := S (next_id tm);
      armed := JSMap.set (next_id tm) (task, period) (armed tm) |},
   next_id tm).

(** [clearInterval(id)] *)
Definition clearInterval (id : nat) (tm : Timers) : Timers :=
  {| next_id := next_id tm; armed := JSMap.delete id (armed tm) |}.

(** The fields of the store that the four timer methods use; [None] is
    [null]. *)
Record t := mkHandles {
  cleanupInterval : Z;
  indexInterval : Z;
  cleanupIntervalId : option nat;
  indexRebuildIntervalId : option nat
}.

(** [options.cleanupInterval || 300000], [options.indexInterval || 60000] *)
Definition interval_option (o : option Z) (default : Z) : Z :=
  match o with
  | Some period => if period =? 0 then default else period
  | None => default
  end.

(** The timer fields as [constructor(options)] leaves them. *)
Definition new (cleanup index : option Z) : t :=
  {| cleanupInterval := interval_option cleanup 300000;
     indexInterval := interval_option index 60000;
     cleanupIntervalId := None;
     indexRebuildIntervalId := None |}.

(** [startCleanup()] *)
Definition startCleanup (h : t) (tm : Timers) : t * Timers :=
  match cleanupIntervalId h with
  | None =>
      let '(tm', id) := setInterval RunCleanup (cleanupInterval h) tm in
      ({| cleanupInterval := cleanupInterval h;
          indexInterval := indexInterval h;
          cleanupIntervalId := Some id;
          indexRebuildIntervalId := indexRebuildIntervalId h |}, tm')
  | Some _ => (h, tm)
  end.

(** [stopCleanup()] *)
Definition stopCleanup (h : t) (tm : Timers) : t * Timers :=
  match cleanupIntervalId h with
  | Some id =>
      ({| cleanupInterval := cleanupInterval h;
          indexInterval := indexInterval h;
          cleanupIntervalId := None;
          indexRebuildIntervalId := indexRebuildIntervalId h |},
       clearInterval id tm)
  | None => (h, tm)
  end.

(** [startIndexRebuild()] *)
Definition startIndexRebuild (h : t) (tm : Timers) : t * Timers :=
  match indexRebuildIntervalId h with
  | None =>
      let '(tm', id) := setInterval RunRebuild (indexInterval h) tm in
      ({| cleanupInterval := cleanupInterval h;
          indexInterval := indexInterval h;
          cleanupIntervalId := cleanupIntervalId h;
          indexRebuildIntervalId := Some id |}, tm')
  | Some _ => (h, tm)
  end.

(** [stopIndexRebuild()] *)
Definition stopIndexRebuild (h : t) (tm : Timers) : t * Timers :=
  match indexRebuildIntervalId h with
  | Some id =>
      ({| cleanupInterval := cleanupInterval h;
          indexInterval := indexInterval h;
          cleanupIntervalId := cleanupIntervalId h;
          indexRebuildIntervalId := None |},
       clearInterval id tm)
  | None => (h, tm)
  end.

(** One call of a timer method. *)
Inductive Call : Type :=
| StartCleanup
| StopCleanup
| StartIndexRebuild
| StopIndexRebuild.

Definition step (call : Call) (state : t * Timers) : t * Timers :=
  match call with
  | StartCleanup => startCleanup (fst state) (snd state)
  | StopCleanup => stopCleanup (fst state) (snd state)
  | StartIndexRebuild => startIndexRebuild (fst state) (snd state)
  | StopIndexRebuild => stopIndexRebuild (fst state) (snd state)
  end.

Fixpoint run (calls : list Call) (state : t * Timers) : t * Timers :=
  match calls with
  | [] => state
  | call :: rest => run rest (step call state)
  end.

(** The handles of the runtime are fresh: every armed timer has a handle
    below the next one, and no handle is armed twice. *)
Definition wf (tm : Timers) : Prop :=
  JSMap.wf (armed tm)
  /\ forall id, In id (JSMap.keys (armed tm)) -> (id < next_id tm)%nat.

(** What the store has armed, by its two id fields: the timer [id] with
    callback and period [x] is the cleanup timer or the rebuild timer. *)
Definition own (h : t) (id : nat) (x : Task * Z) : Prop :=
  (cleanupIntervalId h = Some id /\ x = (RunCleanup, cleanupInterval h))
  \/ (indexRebuildIntervalId h = Some id /\ x = (RunRebuild, indexInterval h)).

(** The armed timers are those of [tm0], untouched, and the timers the id
    fields of [h] name. *)
Definition consistent (tm0 : Timers) (h : t) (tm : Timers) : Prop :=
  wf tm
  /\ (next_id tm0 <= next_id tm)%nat
  /\ (forall id, (id < next_id tm0)%nat ->
        JSMap.get id (armed tm) = JSMap.get id (armed tm0))
  /\ (forall id x, (next_id tm0 <= id)%nat ->
        (JSMap.get id (armed tm) = Some x <-> own h id x))
  /\ (forall id x, own h id x -> (next_id tm0 <= id)%nat).

End MemoryTimers.

(** * More sample stores *)

Module MoreSamples.
Import MemoryStore.

(** ["s1"] set at 0 and set again at 50: the index keeps both entries. *)
Definition set_twice : MemoryStore.t :=
  run [(0, OpSet "s1" Samples.payload_a);
       (50, OpSet "s1" Samples.payload_b)] Samples.store100.

(** A history without a set of ["s2"]. *)
Definition calls_without_s2 : list (Z * Op) :=
  [(0, OpSet "s1" Samples.payload_a); (3, OpTouch "s2" Samples.payload_b);
   (4, OpGet "s2"); (200, OpCleanup); (201, OpRebuild)].

(** A history without any set. *)
Definition calls_without_set : list (Z * Op) :=
  [(3, OpTouch "s1" Samples.payload_b); (4, OpGet "s1"); (5, OpAll);
   (6, OpDestroy "s2"); (200, OpCleanup); (201, OpRebuild); (202, OpLength)].

(** A history without a rebuild. *)
Definition calls_without_rebuild : list (Z * Op) :=
  [(0, OpSet "s1" Samples.payload_a); (1, OpSet "s2" Samples.payload_b);
   (5, OpSet "s1" Samples.payload_a); (7, OpTouch "s2" Samples.payload_a)].

(** A runtime in which a timer of another owner is armed. *)
Definition one_timer : MemoryTimers.Timers :=
  {| MemoryTimers.next_id := 4;
     MemoryTimers.armed := [(2%nat, (MemoryTimers.RunRebuild, 9))] |}.

End MoreSamples.


(** * The file backend, write and listing paths ([src/storages/fileStore.js]) *)

(** What [set], [all] and [length] ask of Node and of the runtime, on top of
    the read path.
    - [writeFile p text fs]: the file system after [fs.writeFile], and the
      [code] of the error when it rejects;
    - [readdir p fs]: the names [fs.readdir] lists, or the [code] of the
      error it rejects with;
    - [path_basename]: [path.basename(file, ext)];
    - [JSON_stringify]: [JSON.stringify] of a document;
    - [toISOString t]: the text of the date with time value [t], [None] when
      the date is out of range and [toISOString] throws. *)
Class NodeIO := {
  io_runtime :: NodeRuntime;
  writeFile : string -> string -> FS -> FS * option string;
  readdir : string -> FS -> list string + string;
  path_basename : string -> string -> string;
  JSON_stringify : JsValue -> string;
  toISOString : Z -> option string
}.

Module FileStoreIO.
Import FileStore.

(** The name of the property that holds item [n] of an array or character
    [n] of a string. *)
Definition index_key (n : nat) : string :=
  DecimalString.NilEmpty.string_of_uint (Nat.to_uint n).

Definition indexed (items : list JsValue) : list (string * JsValue) :=
  combine (map index_key (seq 0 (List.length items))) items.

(** The own enumerable properties of a value, which a spread copies: the
    properties of an object, the items of an array, the characters of a
    string, none for the other values. *)
Definition own_props (v : JsValue) : list (string * JsValue) :=
  match v with
  | JObj props => props
  | JArr items => indexed items
  | JStr s =>
      indexed (map (fun c => JStr (String c EmptyString))
                   (list_ascii_of_string s))
  | _ => []
  end.

(** [{...v}] *)
Definition spread_value (v : JsValue) : Payload := spread (own_props v).

(** The errors that [all] and [length] hand to the callback as they come:
    the rejection of a file system call, the [SyntaxError] of [JSON.parse],
    the [TypeError] of a property read. *)
Inductive Raised : Type :=
| SystemError (code : string)
| SyntaxError
| TypeError.

Section Operations.
Context {io : NodeIO}.

(** The [cookie] property of the document [set] writes:
    [session.cookie ? { ...session.cookie, expires: ... } : null].
    [None] when the expression throws: [session] is [null] or [undefined],
    or [session.cookie.expires] is truthy and has no [toISOString] that
    returns. *)
Definition cookie_for_disk (session : JsValue) : option JsValue :=
  match prop session "cookie" with
  | None => None
  | Some cookie =>
      if truthy cookie then
        match prop cookie "expires" with
        | None => None
        | Some cookieExpires =>
            if truthy cookieExpires then
              match cookieExpires with
              | JDate (Some time) =>
                  match toISOString time with
                  | Some iso =>
                      Some (JObj (JSMap.set "expires" (JStr iso)
                                            (spread_value cookie)))
                  | None => None
                  end
              | _ => None
              end
            else Some (JObj (JSMap.set "expires" JNull (spread_value cookie)))
        end
      else Some JNull
  end.

(** The [sessionData] object of [set]. [None] when building it throws. *)
Definition document (sid : string) (session : JsValue) (now : Z) (store : t)
  : option JsValue :=
  match cookie_for_disk session with
  | None => None
  | Some cookie =>
      match toISOString (now + ttl store * 1000) with
      | None => None
      | Some iso =>
          Some (JObj [("sid", JStr sid);
                      ("session",
                       JObj (JSMap.set "cookie" cookie (spread_value session)));
                      ("expires", JStr iso)])
      end
  end.

(** [set(sid, session, callback)]. [None] when [set] throws before it
    reaches [fs.writeFile]; the callback is not called then. *)
Definition set (sid : string) (session : JsValue) (now : Z) (store : t)
  (fs : FS) : option (FS * Reply unit) :=
  match document sid session now store with
  | None => None
  | Some sessionData =>
      let '(fs', rejected) :=
        writeFile (getFilePath store sid) (JSON_stringify sessionData) fs in
      Some (fs',
            match rejected with
            | None => NoValue
            | Some _ => Failure "Failed to write session data"
            end)
  end.

(** [touch(sid, session, callback)]. The callback that [touch] hands to
    [get] runs inside the [try] block of [get]: when [set] throws there,
    the [catch] of [get] calls it again with its own error, which [touch]
    passes on. *)
Definition touch (sid : string) (session : JsValue) (now : Z) (store : t)
  (fs : FS) : FS * Reply unit :=
  let '(fs1, reply) := get sid now store fs in
  match reply with
  | Failure msg => (fs1, Failure msg)
  | NoValue => (fs1, NoValue)
  | Value existingSession =>
      if truthy existingSession then
        match set sid session now store fs1 with
        | Some outcome => outcome
        | None => (fs1, Failure "Failed to parse session data")
        end
      else (fs1, NoValue)
  end.

(** One promise of the [files.map] of [all]. *)
Definition read_session (store : t) (fs : FS) (file : string)
  : (string * JsValue) + Raised :=
  match readFile (path_join (path store) file) fs with
  | inr code => inr (SystemError code)
  | inl data =>
      match JSON_parse data with
      | None => inr SyntaxError
      | Some sessionData =>
          match prop sessionData "session" with
          | None => inr TypeError
          | Some session => inl (path_basename file ".json", session)
          end
      end
  end.

(** [Promise.all] over the files: the pairs in the order of the listing, or
    an error when a promise rejects (of several, the first of the
    listing). *)
Fixpoint read_sessions (store : t) (fs : FS) (files : list string)
  : list (string * JsValue) + Raised :=
  match files with
  | [] => inl []
  | file :: rest =>
      match read_session store fs file with
      | inr e => inr e
      | inl entry =>
          match read_sessions store fs rest with
          | inr e => inr e
          | inl entries => inl (entry :: entries)
          end
      end
  end.

(** [all(callback)] *)
Definition all (store : t) (fs : FS) : list (string * JsValue) + Raised :=
  match readdir (path store) fs with
  | inr code => inr (SystemError code)
  | inl files => read_sessions store fs files
  end.

(** [length(callback)] *)
Definition length (store : t) (fs : FS) : nat + Raised :=
  match readdir (path store) fs with
  | inr code => inr (SystemError code)
  | inl files => inl (List.length files)
  end.

End Operations.

End FileStoreIO.


(** * A small runtime for the examples of the write and listing paths *)

Module SampleIO.

Definition disk := SampleRuntime.disk.

(** Writing fails on a path that cannot be read, with the same code. *)
Definition disk_writeFile (p text : string) (d : disk) : disk * option string :=
  match JSMap.get p d with
  | Some (inr code) => (d, Some code)
  | _ => (JSMap.set p (inl text) d, None)
  end.

(** The names of the entries under [dir]. *)
Definition disk_readdir (dir : string) (d : disk) : list string + string :=
  let prefix := (dir ++ "/")%string in
  inl (map (fun p => substring (String.length prefix)
                               (String.length p - String.length prefix) p)
           (filter (String.prefix prefix) (JSMap.keys d))).

(** [file] without the ending [ext], when it ends with it. *)
Definition basename (file ext : string) : string :=
  let n := (String.length file - String.length ext)%nat in
  if String.eqb (substring n (String.length ext) file) ext
  then substring 0 n file
  else file.

Definition quote : string := String (Ascii.ascii_of_nat 34) EmptyString.

(** The text of a document without dates: no escapes, [undefined] as
    [null]. *)
Fixpoint print_json (v : JsValue) : string :=
  match v with
  | JUndefined | JNull | JDate _ => "null"
  | JBool true => "true"
  | JBool false => "false"
  | JNum n => DecimalString.NilZero.string_of_int (Z.to_int n)
  | JStr text => (quote ++ text ++ quote)%string
  | JArr items =>
      ("["
       ++ (fix items_text (l : list JsValue) : string :=
             match l with
             | [] => ""
             | x :: rest =>
                 print_json x
                 ++ match rest with
                    | [] => ""
                    | _ => "," ++ items_text rest
                    end
             end) items
       ++ "]")%string
  | JObj props =>
      ("{"
       ++ (fix props_text (l : list (string * JsValue)) : string :=
             match l with
             | [] => ""
             | (k, x) :: rest =>
                 quote ++ k ++ quote ++ ":" ++ print_json x
                 ++ match rest with
                    | [] => ""
                    | _ => "," ++ props_text rest
                    end
             end) props
       ++ "}")%string
  end.

(** Dates are written as [T] followed by the time value. *)
Definition iso_of (time : Z) : option string :=
  Some ("T" ++ DecimalString.NilZero.string_of_int (Z.to_int time))%string.

Definition date_of (v : JsValue) : option Z :=
  match v with
  | JNum n => Some n
  | JStr (String c digits) =>
      if Ascii.eqb c (Ascii.ascii_of_nat 84)
      then option_map Z.of_int (DecimalString.NilZero.int_of_string digits)
      else None
  | JDate time => time
  | _ => None
  end.

(** A payload without a cookie, and the document [set] writes for it at
    time 100 with a [ttl] of one second. *)
Definition session_a : JsValue := JObj [("a", JNum 1)].

Definition document_a : JsValue :=
  JObj [("sid", JStr "s1");
        ("session", JObj [("a", JNum 1); ("cookie", JNull)]);
        ("expires", JStr "T1100")].

(** A payload with a cookie that expires at 5000, and its document. *)
Definition session_c : JsValue :=
  JObj [("a", JNum 1);
        ("cookie", JObj [("path", JStr "/"); ("expires", JDate (Some 5000))])].

Definition document_c : JsValue :=
  JObj [("sid", JStr "s2");
        ("session",
         JObj [("a", JNum 1);
               ("cookie", JObj [("path", JStr "/"); ("expires", JStr "T5000")])]);
        ("expires", JStr "T1100")].

(** [JSON.parse] on the texts of the examples. *)
Definition parse (text : string) : option JsValue :=
  if String.eqb text (print_json document_a) then Some document_a
  else if String.eqb text (print_json document_c) then Some document_c
  else if String.eqb text "null" then Some JNull
  else None.

#[export] Instance read_runtime : NodeRuntime :=
  {| FS := disk;
     readFile := SampleRuntime.disk_readFile;
     unlink := SampleRuntime.disk_unlink;
     path_join := SampleRuntime.join;
     JSON_parse := parse;
     Date_of := date_of |}.

#[export] Instance runtime : NodeIO :=
  {| io_runtime := read_runtime;
     writeFile := disk_writeFile;
     readdir := disk_readdir;
     path_basename := basename;
     JSON_stringify := print_json;
     toISOString := iso_of |}.

(** A store with a [ttl] of one second. *)
Definition store : FileStore.t :=
  {| FileStore.path := "sessions"; FileStore.ttl := 1 |}.

(** A directory with the record of ["s1"] and a file that holds [null]. *)
Definition disk_a : disk :=
  [("sessions/s1.json", inl (print_json document_a));
   ("sessions/void.json", inl "null")].

(** A directory with the record of ["s1"] and a torn file. *)
Definition disk_torn : disk :=
  [("sessions/s1.json", inl (print_json document_a));
   ("sessions/torn.json", inl "{")].

(** A directory that holds the record of ["s1"] only. *)
Definition disk_one : disk :=
  [("sessions/s1.json", inl (print_json document_a))].

End SampleIO.

(* DEFS-END *)

(** * Facts about the insertion-ordered map *)

Lemma keqb_refl {K} `{EqKey K} (k : K) : keqb k k = true.
Proof. destruct (keqb_spec k k); congruence. Qed.

Lemma keqb_neq {K} `{EqKey K} (a b : K) : a <> b -> keqb a b = false.
Proof. intros Hn. destruct (keqb_spec a b); congruence. Qed.


Section JSMapFacts.
Context {K V : Type} `{EqKey K}.
Implicit Types (k : K) (v : V) (m : JSMap.t K V).
Import JSMap.

Lemma get_set_eq k v m : get k (set k v m) = Some v.
Proof.
  induction m as [|[k' v'] rest IH]; simpl.
  - now rewrite keqb_refl.
  - destruct (keqb_spec k k') as [->|Hn]; simpl.
    + now rewrite keqb_refl.
    + now rewrite (keqb_neq _ _ Hn).
Qed.

Lemma get_set_neq k k' v m : k <> k' -> get k' (set k v m) = get k' m.
Proof.
  intros Hn. induction m as [|[k0 v0] rest IH]; simpl.
  - rewrite keqb_neq; auto.
  - destruct (keqb_spec k k0) as [->|Hn0]; simpl.
    + rewrite keqb_neq; auto.
    + now rewrite IH.
Qed.

Lemma get_delete_eq k m : get k (delete k m) = None.
Proof.
  induction m as [|[k0 v0] rest IH]; simpl; auto.
  destruct (keqb_spec k k0) as [->|Hn0]; simpl; auto.
  now rewrite (keqb_neq _ _ Hn0).
Qed.

Lemma get_delete_neq k k' m : k <> k' -> get k' (delete k m) = get k' m.
Proof.
  intros Hn. induction m as [|[k0 v0] rest IH]; simpl; auto.
  destruct (keqb_spec k k0) as [->|Hn0]; simpl.
  - rewrite keqb_neq; auto.
  - now rewrite IH.
Qed.

Lemma get_None_keys k m : get k m = None <-> ~ In k (keys m).
Proof.
  induction m as [|[k0 v0] rest IH]; simpl.
  - tauto.
  - destruct (keqb_spec k k0) as [->|Hn0].
    + split; [discriminate | intros Hc; exfalso; apply Hc; now left].
    + rewrite IH. split; [intros Hc [He|Hi]; [congruence|tauto] | tauto].
Qed.

Lemma get_Some_In k v m : get k m = Some v -> In (k, v) m.
Proof.
  induction m as [|[k0 v0] rest IH]; simpl; [discriminate|].
  destruct (keqb_spec k k0) as [->|Hn0].
  - intros [= ->]. now left.
  - intros Hg. right. auto.
Qed.

Lemma In_keys k v m : In (k, v) m -> In k (keys m).
Proof. intros Hi. apply (in_map fst) in Hi. exact Hi. Qed.

Lemma In_get k v m : wf m -> In (k, v) m -> get k m = Some v.
Proof.
  unfold wf. induction m as [|[k0 v0] rest IH]; simpl; [tauto|].
  intros Hnd [Heq|Hi]; inversion Hnd as [|? ? Hni Hnd']; subst.
  - inversion Heq; subst. now rewrite keqb_refl.
  - destruct (keqb_spec k k0) as [->|Hn0].
    + exfalso. apply Hni. eapply In_keys; eauto.
    + auto.
Qed.

Lemma has_true k m : has k m = true <-> In k (keys m).
Proof.
  unfold has. destruct (get k m) eqn:Hg.
  - split; auto. intros _. eapply In_keys, get_Some_In; eauto.
  - apply get_None_keys in Hg. split; [discriminate | tauto].
Qed.

Lemma keys_set_fresh k v m : get k m = None -> set k v m = m ++ [(k, v)].
Proof.
  induction m as [|[k0 v0] rest IH]; simpl; auto.
  destruct (keqb_spec k k0) as [->|Hn0]; [discriminate|].
  intros Hg. now rewrite IH.
Qed.

Lemma In_keys_set k k' v m :
  In k' (keys (set k v m)) <-> k' = k \/ In k' (keys m).
Proof.
  induction m as [|[k0 v0] rest IH]; simpl.
  - intuition congruence.
  - destruct (keqb_spec k k0) as [->|Hn0]; simpl.
    + intuition congruence.
    + rewrite IH. intuition congruence.
Qed.

Lemma In_delete k kv m :
  In kv (delete k m) <-> In kv m /\ fst kv <> k.
Proof.
  induction m as [|[k0 v0] rest IH]; simpl.
  - tauto.
  - destruct (keqb_spec k k0) as [->|Hn0]; simpl; rewrite IH.
    + split; [tauto|]. intros [[<-|Hi] Hne]; simpl in *; tauto.
    + split; [intros [<-|[Hi Hne]]; simpl; auto|tauto].
Qed.

Lemma In_keys_delete k k' m :
  In k' (keys (delete k m)) <-> In k' (keys m) /\ k' <> k.
Proof.
  unfold keys. rewrite !in_map_iff. split.
  - intros [kv [<- Hi]]. apply In_delete in Hi as [Hi Hne].
    split; eauto.
  - intros [[kv [<- Hi]] Hne]. exists kv. split; auto.
    apply In_delete; auto.
Qed.

Lemma wf_empty : wf (empty : JSMap.t K V).
Proof. constructor. Qed.

Lemma wf_set k v m : wf m -> wf (set k v m).
Proof.
  unfold wf. induction m as [|[k0 v0] rest IH]; simpl.
  - intros _. repeat constructor. simpl. tauto.
  - intros Hnd. inversion Hnd as [|? ? Hni Hnd']; subst.
    destruct (keqb_spec k k0) as [->|Hn0]; simpl.
    + constructor; auto.
    + constructor; auto.
      change (~ In k0 (keys (set k v rest))).
      rewrite In_keys_set. intros [?|?]; congruence.
Qed.

Lemma wf_delete k m : wf m -> wf (delete k m).
Proof.
  unfold wf. induction m as [|[k0 v0] rest IH]; simpl; auto.
  intros Hnd. inversion Hnd as [|? ? Hni Hnd']; subst.
  destruct (keqb_spec k k0) as [->|Hn0]; simpl; auto.
  constructor; auto.
  change (~ In k0 (keys (delete k rest))).
  rewrite In_keys_delete. tauto.
Qed.

End JSMapFacts.

(** * The memory backend: payloads, [set], [get], [destroy], [touch] *)

Module MemoryFacts.
Import MemoryStore.

(** Spreading a plain object (property names unique) yields an object with
    the same properties in the same order. *)
Lemma spread_acc (session acc : Payload) :
  NoDup (JSMap.keys (acc ++ session)) ->
  fold_left (fun a kv => JSMap.set (fst kv) (snd kv) a) session acc
  = acc ++ session.
Proof.
  revert acc. induction session as [|[k v] rest IH]; intros acc Hnd; simpl.
  - now rewrite app_nil_r.
  - rewrite keys_set_fresh.
    + rewrite IH; rewrite <- app_assoc; simpl; auto.
    + apply get_None_keys. unfold JSMap.keys in *.
      rewrite map_app in Hnd. simpl in Hnd.
      apply NoDup_remove_2 in Hnd. intros Hin. apply Hnd.
      apply in_or_app. now left.
Qed.

Lemma spread_object (session : Payload) :
  JSMap.wf session -> spread session = session.
Proof. intros Hwf. unfold spread. now rewrite spread_acc. Qed.

Lemma maxAge_destroy sid st : maxAge (fst (destroy sid st)) = maxAge st.
Proof. unfold destroy. now destruct (JSMap.get sid (sessions st)). Qed.

(** What [get] does, case by case, as the code decides it. *)
Lemma get_cases sid now st :
  match JSMap.get sid (sessions st) with
  | None => get sid now st = (st, NoValue)
  | Some sd =>
      (expires sd < now -> get sid now st = (fst (destroy sid st), NoValue))
      /\ (now <= expires sd -> get sid now st = (st, Value (data sd)))
  end.
Proof.
  unfold get. destruct (JSMap.get sid (sessions st)) as [sd|]; auto.
  destruct (Z.ltb_spec (expires sd) now); split; intros; auto; lia.
Qed.

(** C2, at the instant of expiry: a record set at time 0 with [maxAge] 100
    expires at 100; [get] at clock reading 100 still hands the payload to
    the callback and leaves the record in both maps, while [all] at the same
    instant leaves it out. *)
Theorem get_at_expiry_instant_is_a_hit :
  expires_of "s1" Samples.one_record = Some 100
  /\ get "s1" 100 Samples.one_record
     = (Samples.one_record, Value Samples.payload_a)
  /\ snd (all 100 Samples.one_record) = Value []
  /\ get "s1" 101 Samples.one_record
     = ({| sessions := []; expirationIndex := []; maxAge := 100 |}, NoValue).
Proof. repeat split. Qed.

(** C3: [set] replies [callback(null)] whatever the payload and the store;
    afterwards the primary entry of [sid] holds a copy of the payload (the
    payload itself for a plain object) and [now + maxAge], the index maps
    [now + maxAge] to [sid], every other index entry, an older one of [sid]
    included, is as before, and so is every other record. *)
Theorem set_unconditional sid session now st :
  let st' := fst (set sid session now st) in
  snd (set sid session now st) = NoValue
  /\ JSMap.get sid (sessions st')
     = Some {| data := spread session; expires := now + maxAge st |}
  /\ (JSMap.wf session -> spread session = session)
  /\ JSMap.get (now + maxAge st) (expirationIndex st') = Some sid
  /\ (forall e, e <> now + maxAge st ->
        JSMap.get e (expirationIndex st') = JSMap.get e (expirationIndex st))
  /\ (forall sid', sid' <> sid ->
        JSMap.get sid' (sessions st') = JSMap.get sid' (sessions st))
  /\ maxAge st' = maxAge st.
Proof.
  simpl. repeat split.
  - apply get_set_eq.
  - apply spread_object.
  - apply get_set_eq.
  - intros e He. apply get_set_neq. congruence.
  - intros sid' Hs. apply get_set_neq. congruence.
Qed.

(** An older index entry of the same id survives a later [set]. *)
Example set_keeps_old_index_entry :
  expirationIndex (run [(0, OpSet "s1" Samples.payload_a);
                        (5, OpSet "s1" Samples.payload_a)] Samples.store100)
  = [(100, "s1"); (105, "s1")].
Proof. reflexivity. Qed.

(** C5, absent id: [touch] changes nothing and creates no record. *)
Lemma touch_absent sid session now st :
  JSMap.get sid (sessions st) = None ->
  touch sid session now st = (st, NoValue).
Proof. unfold touch. now intros ->. Qed.

(** C5: [touch] on an absent id leaves the store as it is; on a present id
    it stores the new payload with [now + maxAge], drops the index entry
    keyed by the old expiration time and enters [now + maxAge -> sid]; all
    other records and index entries stay. *)
Theorem touch_spec sid session now st :
  (JSMap.get sid (sessions st) = None ->
     touch sid session now st = (st, NoValue)
     /\ JSMap.get sid (sessions (fst (touch sid session now st))) = None)
  /\ (forall sd, JSMap.get sid (sessions st) = Some sd ->
        let st' := fst (touch sid session now st) in
        let newExpires := now + maxAge st in
        snd (touch sid session now st) = NoValue
        /\ JSMap.get sid (sessions st')
           = Some {| data := session; expires := newExpires |}
        /\ (forall sid', sid' <> sid ->
              JSMap.get sid' (sessions st') = JSMap.get sid' (sessions st))
        /\ JSMap.get newExpires (expirationIndex st') = Some sid
        /\ (expires sd <> newExpires ->
              JSMap.get (expires sd) (expirationIndex st') = None)
        /\ (forall e, e <> newExpires -> e <> expires sd ->
              JSMap.get e (expirationIndex st')
              = JSMap.get e (expirationIndex st))
        /\ maxAge st' = maxAge st).
Proof.
  split.
  - intros Hnone. rewrite (touch_absent _ _ _ _ Hnone). simpl. auto.
  - intros sd Hsd. unfold touch. rewrite Hsd. simpl. repeat split.
    + apply get_set_eq.
    + intros sid' Hs. apply get_set_neq. congruence.
    + apply get_set_eq.
    + intros Hne. rewrite get_set_neq by congruence. apply get_delete_eq.
    + intros e He1 He2. rewrite get_set_neq by congruence.
      apply get_delete_neq. congruence.
Qed.

(** An instance: ["s1"] set at 0 and touched at 7; ["zz"] absent. *)
Lemma touch_spec_witness :
  touch "zz" Samples.payload_b 7 Samples.one_record
  = (Samples.one_record, NoValue)
  /\ JSMap.get "s1"
       (sessions (fst (touch "s1" Samples.payload_b 7 Samples.one_record)))
     = Some {| data := Samples.payload_b; expires := 107 |}
  /\ JSMap.get 100
       (expirationIndex
          (fst (touch "s1" Samples.payload_b 7 Samples.one_record)))
     = None.
Proof.
  destruct (touch_spec "zz" Samples.payload_b 7 Samples.one_record)
    as [Habsent _].
  destruct (touch_spec "s1" Samples.payload_b 7 Samples.one_record)
    as [_ Hpresent].
  specialize (Hpresent {| data := Samples.payload_a; expires := 100 |}
                       eq_refl).
  split; [apply Habsent; reflexivity|].
  split; [apply Hpresent|].
  apply Hpresent. vm_compute. discriminate.
Defined.

(** C6: a payload stored by [set] at time [now] is what [get] hands back at
    any later reading of the clock before the record expires, and that
    [get] leaves the store alone. *)
Theorem set_get_roundtrip sid session now now' st :
  JSMap.wf session ->
  now' < now + maxAge st ->
  get sid now' (fst (set sid session now st))
  = (fst (set sid session now st), Value session).
Proof.
  intros Hobj Hlive. unfold set. simpl. rewrite (spread_object _ Hobj).
  match goal with |- get _ _ ?s = _ => pose proof (get_cases sid now' s) as Hc end.
  simpl in Hc. rewrite get_set_eq in Hc. simpl in Hc.
  apply Hc. lia.
Qed.

(** An instance: a record set at 0 and read at 3. *)
Lemma set_get_roundtrip_witness :
  JSMap.wf Samples.payload_a
  /\ 3 < 0 + maxAge Samples.store100
  /\ get "s1" 3 (fst (set "s1" Samples.payload_a 0 Samples.store100))
     = (fst (set "s1" Samples.payload_a 0 Samples.store100),
        Value Samples.payload_a).
Proof.
  assert (Hobj : JSMap.wf Samples.payload_a)
    by (repeat constructor; simpl; tauto).
  assert (Hlive : 3 < 0 + maxAge Samples.store100) by reflexivity.
  split; [exact Hobj|]. split; [exact Hlive|].
  exact (set_get_roundtrip "s1" Samples.payload_a 0 3 Samples.store100
           Hobj Hlive).
Defined.

(** ** [all] *)

Lemma NoDup_keys_filter {K V} (f : K * V -> bool) (m : list (K * V)) :
  NoDup (map fst m) -> NoDup (map fst (filter f m)).
Proof.
  induction m as [|kv rest IH]; simpl; auto.
  intros Hnd. inversion Hnd as [|? ? Hni Hnd']; subst.
  destruct (f kv); simpl; auto.
  constructor; auto. intros Hin. apply Hni.
  apply in_map_iff in Hin as [x [Hx Hin]]. apply filter_In in Hin as [Hin _].
  apply in_map_iff. eauto.
Qed.

(** C7: [all] hands back one pair for every record whose expiration time
    lies after [now], and for no other; it changes neither map. *)
Theorem all_spec now st :
  JSMap.wf (sessions st) ->
  fst (all now st) = st
  /\ exists pairs,
       snd (all now st) = Value pairs
       /\ (forall sid p,
             In (sid, p) pairs <->
             exists sd, JSMap.get sid (sessions st) = Some sd
                        /\ data sd = p /\ now < expires sd)
       /\ NoDup (map fst pairs).
Proof.
  intros Hwf. split; [reflexivity|]. unfold all. simpl.
  eexists. split; [reflexivity|]. split.
  - intros sid p. rewrite in_map_iff. split.
    + intros [[sid' sd] [Heq Hin]]. simpl in Heq. inversion Heq; subst.
      apply filter_In in Hin as [Hin Hlive]. simpl in Hlive.
      exists sd. repeat split; [now apply In_get | lia].
    + intros [sd [Hget [Hdata Hlive]]]. exists (sid, sd). simpl.
      split; [congruence|]. apply filter_In. split.
      * now apply get_Some_In.
      * simpl. lia.
  - rewrite map_map. simpl.
    apply (NoDup_keys_filter (fun e => now <? expires (snd e))). exact Hwf.
Qed.

(** An instance: a store with an expired and a live record. *)
Lemma all_spec_witness :
  JSMap.wf (sessions Samples.two_records)
  /\ fst (all 100 Samples.two_records) = Samples.two_records
  /\ snd (all 100 Samples.two_records) = Value [("s2", Samples.payload_b)].
Proof.
  assert (Hwf : JSMap.wf (sessions Samples.two_records)).
  { repeat constructor; simpl; intuition discriminate. }
  destruct (all_spec 100 Samples.two_records Hwf) as [Hframe _].
  split; [exact Hwf|]. split; [exact Hframe | reflexivity].
Defined.

(** ** The representation invariant is kept by every call *)

Lemma wf_new o : wf (new o).
Proof. split; constructor. Qed.

Lemma wf_destroy sid st : wf st -> wf (fst (destroy sid st)).
Proof.
  intros [Hs Hi]. unfold destroy.
  destruct (JSMap.get sid (sessions st)); simpl; [|now split].
  split; simpl; now apply wf_delete.
Qed.

Lemma wf_cleanup_loop now pending st :
  wf st -> wf (cleanup_loop now pending st).
Proof.
  revert st. induction pending as [|[e sid] rest IH]; intros st Hwf; simpl; auto.
  destruct (JSMap.has e (expirationIndex st)); auto.
  destruct (e <=? now); auto.
  apply IH. destruct (wf_destroy sid st Hwf) as [Hs Hi].
  split; simpl; auto. now apply wf_delete.
Qed.

Lemma wf_rebuild_loop now pending ss idx :
  JSMap.wf ss -> JSMap.wf idx ->
  JSMap.wf (fst (rebuild_loop now pending ss idx))
  /\ JSMap.wf (snd (rebuild_loop now pending ss idx)).
Proof.
  revert ss idx.
  induction pending as [|[sid sd] rest IH]; intros ss idx Hs Hi; simpl; auto.
  destruct (now <? expires sd); apply IH; auto using wf_set, wf_delete.
Qed.

Lemma wf_step op now st : wf st -> wf (step op now st).
Proof.
  intros Hwf. pose proof Hwf as [Hs Hi]. destruct op; simpl; auto.
  - split; simpl; now apply wf_set.
  - unfold get. destruct (JSMap.get sid (sessions st)) as [sd|]; simpl; auto.
    destruct (expires sd <? now); simpl; auto using wf_destroy.
  - now apply wf_destroy.
  - unfold touch. destruct (JSMap.get sid (sessions st)) as [sd|]; simpl; auto.
    split; simpl; auto using wf_set, wf_delete.
  - split; constructor.
  - now apply wf_cleanup_loop.
  - unfold rebuildIndex.
    destruct (wf_rebuild_loop now (sessions st) (sessions st) JSMap.empty)
      as [Hs' Hi']; auto using wf_empty.
    destruct (rebuild_loop now (sessions st) (sessions st) JSMap.empty).
    now split.
Qed.

Lemma wf_run calls st : wf st -> wf (run calls st).
Proof.
  revert st. induction calls as [|[now op] rest IH]; intros st Hwf; simpl; auto.
  apply IH. now apply wf_step.
Qed.

(** ** Expiration times along a sequence of calls *)

Lemma get_delete_Some {K V} `{EqKey K} (k k' : K) (v : V) m :
  JSMap.get k' (JSMap.delete k m) = Some v -> JSMap.get k' m = Some v.
Proof.
  destruct (keqb_spec k k') as [->|Hn].
  - now rewrite get_delete_eq.
  - now rewrite get_delete_neq.
Qed.

Lemma sessions_destroy sid sid' sd st :
  JSMap.get sid' (sessions (fst (destroy sid st))) = Some sd ->
  JSMap.get sid' (sessions st) = Some sd.
Proof.
  unfold destroy. destruct (JSMap.get sid (sessions st)); simpl; auto.
  apply get_delete_Some.
Qed.

(** The cleanup loop only deletes records. *)
Lemma sessions_cleanup_loop now pending st sid sd :
  JSMap.get sid (sessions (cleanup_loop now pending st)) = Some sd ->
  JSMap.get sid (sessions st) = Some sd.
Proof.
  revert st. induction pending as [|[e s] rest IH]; intros st; simpl; auto.
  destruct (JSMap.has e (expirationIndex st)); auto.
  destruct (e <=? now); auto.
  intros Hg. apply IH in Hg. simpl in Hg. eapply sessions_destroy; eauto.
Qed.

Lemma maxAge_cleanup_loop now pending st :
  maxAge (cleanup_loop now pending st) = maxAge st.
Proof.
  revert st. induction pending as [|[e s] rest IH]; intros st; simpl; auto.
  destruct (JSMap.has e (expirationIndex st)); auto.
  destruct (e <=? now); auto.
  rewrite IH. simpl. apply maxAge_destroy.
Qed.

(** The rebuild loop only deletes records. *)
Lemma sessions_rebuild_loop now pending ss idx sid sd :
  JSMap.get sid (fst (rebuild_loop now pending ss idx)) = Some sd ->
  JSMap.get sid ss = Some sd.
Proof.
  revert ss idx. induction pending as [|[s d] rest IH]; intros ss idx; simpl; auto.
  destruct (now <? expires d); intros Hg; apply IH in Hg; auto.
  eapply get_delete_Some; eauto.
Qed.

Lemma maxAge_step op now st : maxAge (step op now st) = maxAge st.
Proof.
  destruct op; simpl; auto.
  - unfold get. destruct (JSMap.get sid (sessions st)) as [sd|]; simpl; auto.
    destruct (expires sd <? now); simpl; auto using maxAge_destroy.
  - apply maxAge_destroy.
  - unfold touch. now destruct (JSMap.get sid (sessions st)).
  - apply maxAge_cleanup_loop.
  - unfold rebuildIndex.
    now destruct (rebuild_loop now (sessions st) (sessions st) JSMap.empty).
Qed.

(** After one call a record carries either the expiration time it had
    before the call or [now + maxAge]. *)
Lemma step_expires op now st sid e :
  expires_of sid (step op now st) = Some e ->
  expires_of sid st = Some e \/ e = now + maxAge st.
Proof.
  unfold expires_of.
  destruct (JSMap.get sid (sessions (step op now st))) as [sd|] eqn:Hg;
    [|discriminate].
  simpl. intros [= <-].
  assert (Hkeep : JSMap.get sid (sessions st) = Some sd ->
                  option_map expires (JSMap.get sid (sessions st))
                  = Some (expires sd) \/ expires sd = now + maxAge st).
  { intros ->. now left. }
  destruct op as [s p|s|s|s p| | | | |]; simpl in Hg; auto.
  - destruct (keqb_spec s sid) as [->|Hn].
    + rewrite get_set_eq in Hg. inversion Hg; subst. now right.
    + rewrite get_set_neq in Hg by assumption. auto.
  - unfold get in Hg. destruct (JSMap.get s (sessions st)) as [d|]; auto.
    destruct (expires d <? now); auto.
    apply Hkeep. eapply sessions_destroy; eauto.
  - apply Hkeep. eapply sessions_destroy; eauto.
  - unfold touch in Hg.
    destruct (JSMap.get s (sessions st)) as [d|] eqn:Hs; auto.
    simpl in Hg. destruct (keqb_spec s sid) as [->|Hn].
    + rewrite get_set_eq in Hg. inversion Hg; subst. now right.
    + rewrite get_set_neq in Hg by assumption. auto.
  - discriminate.
  - apply Hkeep. eapply sessions_cleanup_loop; eauto.
  - apply Hkeep. unfold rebuildIndex in Hg.
    pose proof (sessions_rebuild_loop now (sessions st) (sessions st)
                  JSMap.empty sid sd) as Hr.
    destruct (rebuild_loop now (sessions st) (sessions st) JSMap.empty).
    auto.
Qed.

Lemma run_app calls1 calls2 st :
  run (calls1 ++ calls2) st = run calls2 (run calls1 st).
Proof.
  revert st. induction calls1 as [|[now op] rest IH]; intros st; simpl; auto.
Qed.

Lemma maxAge_run calls st : maxAge (run calls st) = maxAge st.
Proof.
  revert st. induction calls as [|[now op] rest IH]; intros st; simpl; auto.
  rewrite IH. apply maxAge_step.
Qed.

(** Under a clock that never goes back, a bound [e0] below the expiration
    time of [sid] and below [t + maxAge] stays below it. *)
Lemma run_lower_bound calls t st sid e0 :
  clock_monotone t calls ->
  e0 <= t + maxAge st ->
  (forall e, expires_of sid st = Some e -> e0 <= e) ->
  forall e', expires_of sid (run calls st) = Some e' -> e0 <= e'.
Proof.
  revert t st.
  induction calls as [|[now op] rest IH]; intros t st Hclock Hmax Hlow e';
    simpl; auto.
  destruct Hclock as [Hle Hclock].
  apply (IH now); auto.
  - rewrite maxAge_step. lia.
  - intros e He. apply step_expires in He as [He| ->]; auto. lia.
Qed.

(** Every stored expiration time is at most the last clock reading plus
    [maxAge]. *)
Lemma run_prefix_bound calls1 calls2 t st :
  clock_monotone t (calls1 ++ calls2) ->
  (forall sid e, expires_of sid st = Some e -> e <= t + maxAge st) ->
  exists t1,
    clock_monotone t1 calls2
    /\ forall sid e, expires_of sid (run calls1 st) = Some e ->
                     e <= t1 + maxAge st.
Proof.
  revert t st.
  induction calls1 as [|[now op] rest IH]; intros t st Hclock Hb; simpl in *.
  - exists t. auto.
  - destruct Hclock as [Hle Hclock].
    assert (Hb' : forall sid e,
               expires_of sid (step op now st) = Some e ->
               e <= now + maxAge (step op now st)).
    { intros sid e He. rewrite maxAge_step.
      apply step_expires in He as [He| ->]; [apply Hb in He|]; lia. }
    destruct (IH now (step op now st) Hclock Hb') as [t1 [Hc1 Hb1]].
    exists t1. split; auto. intros sid e He.
    rewrite <- (maxAge_step op now st). exact (Hb1 sid e He).
Qed.

(** C9: along any sequence of calls on a fresh store, issued under a clock
    that never goes back, the expiration time a record has at one point is
    never above the one it has at a later point; between the two the record
    may have been deleted and set again. *)
Theorem expires_never_decreases o t0 calls1 calls2 sid e e' :
  clock_monotone t0 (calls1 ++ calls2) ->
  expires_of sid (run calls1 (new o)) = Some e ->
  expires_of sid (run (calls1 ++ calls2) (new o)) = Some e' ->
  e <= e'.
Proof.
  intros Hclock He He'. rewrite run_app in He'.
  destruct (run_prefix_bound calls1 calls2 t0 (new o) Hclock)
    as [t1 [Hc1 Hb1]]; [discriminate|].
  apply (run_lower_bound calls2 t1 (run calls1 (new o)) sid e); auto.
  - rewrite maxAge_run. exact (Hb1 sid e He).
  - intros e1 He1. rewrite He in He1. inversion He1. lia.
Qed.

(** An instance: ["s1"], set at 0 and again at 5, across a rebuild and a
    cleanup. *)
Lemma expires_never_decreases_witness :
  let calls1 := [(0, OpSet "s1" Samples.payload_a)] in
  let calls2 := [(1, OpSet "s2" Samples.payload_b);
                 (5, OpSet "s1" Samples.payload_a);
                 (6, OpRebuild); (102, OpCleanup)] in
  clock_monotone 0 (calls1 ++ calls2)
  /\ expires_of "s1" (run calls1 (new (Some 100))) = Some 100
  /\ expires_of "s1" (run (calls1 ++ calls2) (new (Some 100))) = Some 105
  /\ 100 <= 105.
Proof.
  intros calls1 calls2.
  assert (Hclock : clock_monotone 0 (calls1 ++ calls2))
    by (simpl; repeat split; lia).
  split; [exact Hclock|]. split; [reflexivity|]. split; [reflexivity|].
  exact (expires_never_decreases (Some 100) 0 calls1 calls2 "s1" 100 105
           Hclock eq_refl eq_refl).
Defined.

(** ** One id per expiration time *)

(** C10: the index of a store never holds two ids under one expiration
    time; of two records set at the same instant the index names the one set
    last; [destroy], and [get] when it finds [now] past the record's
    expiration time, delete the index entry keyed by the record's expiration
    time whichever id it names, and the record of that other id stays. *)
Theorem index_one_id_per_timestamp :
  (forall o calls e a b,
      In (e, a) (expirationIndex (run calls (new o))) ->
      In (e, b) (expirationIndex (run calls (new o))) -> a = b)
  /\ (forall st s1 s2 p1 p2 now,
        s1 <> s2 -> JSMap.wf (expirationIndex st) ->
        let st2 := fst (set s2 p2 now (fst (set s1 p1 now st))) in
        expires_of s1 st2 = Some (now + maxAge st)
        /\ expires_of s2 st2 = Some (now + maxAge st)
        /\ JSMap.get (now + maxAge st) (expirationIndex st2) = Some s2
        /\ ~ In (now + maxAge st, s1) (expirationIndex st2))
  /\ (forall st sid sd other,
        JSMap.get sid (sessions st) = Some sd ->
        JSMap.get (expires sd) (expirationIndex st) = Some other ->
        let st' := fst (destroy sid st) in
        JSMap.get (expires sd) (expirationIndex st') = None
        /\ JSMap.get sid (sessions st') = None
        /\ (other <> sid ->
            JSMap.get other (sessions st') = JSMap.get other (sessions st)))
  /\ (forall st sid sd other now,
        JSMap.get sid (sessions st) = Some sd ->
        JSMap.get (expires sd) (expirationIndex st) = Some other ->
        expires sd < now ->
        let st' := fst (get sid now st) in
        snd (get sid now st) = NoValue
        /\ JSMap.get (expires sd) (expirationIndex st') = None
        /\ JSMap.get sid (sessions st') = None
        /\ (other <> sid ->
            JSMap.get other (sessions st') = JSMap.get other (sessions st))).
Proof.
  assert (Hdestroy : forall st sid sd other,
             JSMap.get sid (sessions st) = Some sd ->
             JSMap.get (expires sd) (expirationIndex st) = Some other ->
             let st' := fst (destroy sid st) in
             JSMap.get (expires sd) (expirationIndex st') = None
             /\ JSMap.get sid (sessions st') = None
             /\ (other <> sid ->
                 JSMap.get other (sessions st')
                 = JSMap.get other (sessions st))).
  { intros st sid sd other Hsd _. unfold destroy. rewrite Hsd. simpl.
    repeat split; try apply get_delete_eq.
    intros Hne. apply get_delete_neq. congruence. }
  repeat apply conj.
  - intros o calls e a b Ha Hb.
    destruct (wf_run calls (new o) (wf_new o)) as [_ Hwf].
    apply (In_get _ _ _ Hwf) in Ha. apply (In_get _ _ _ Hwf) in Hb.
    congruence.
  - intros st s1 s2 p1 p2 now Hne Hwf. unfold expires_of. simpl.
    rewrite get_set_neq, !get_set_eq by congruence. simpl.
    repeat split.
    intros Hin. apply In_get in Hin; [|now repeat apply wf_set].
    rewrite get_set_eq in Hin. congruence.
  - exact Hdestroy.
  - intros st sid sd other now Hsd Hother Hlt.
    pose proof (get_cases sid now st) as Hc. rewrite Hsd in Hc.
    destruct Hc as [Hmiss _]. rewrite (Hmiss Hlt). simpl.
    split; [reflexivity|]. now apply Hdestroy.
Qed.

(** An instance, two records set at time 0: the index
    names ["s2"] under 100, and destroying ["s1"] removes that entry while
    ["s2"] stays in the primary map; [get] at 120 does the same to the
    entry of the refreshed ["s2"]. *)
Lemma index_one_id_per_timestamp_witness :
  expirationIndex Samples.same_instant = [(100, "s2")]
  /\ expirationIndex (fst (destroy "s1" Samples.same_instant)) = []
  /\ expires_of "s2" (fst (destroy "s1" Samples.same_instant)) = Some 100
  /\ JSMap.get 100
       (expirationIndex (fst (get "s1" 120 Samples.same_instant_refreshed)))
     = None
  /\ expires_of "s2" (fst (get "s1" 120 Samples.same_instant_refreshed))
     = Some 150.
Proof.
  destruct index_one_id_per_timestamp as (_ & _ & _ & Hget).
  specialize (Hget Samples.same_instant_refreshed "s1"
                {| data := Samples.payload_a; expires := 100 |} "s2" 120
                eq_refl eq_refl eq_refl).
  split; [reflexivity|]. split; [reflexivity|]. split; [reflexivity|].
  split; [apply Hget | reflexivity].
Defined.

(** ** [rebuildIndex] *)

Lemma delete_absent {K V} `{EqKey K} (k : K) (m : JSMap.t K V) :
  ~ In k (JSMap.keys m) -> JSMap.delete k m = m.
Proof.
  induction m as [|[k0 v0] rest IH]; simpl; auto.
  intros Hni. destruct (keqb_spec k k0) as [->|Hn]; [tauto|].
  rewrite IH; tauto.
Qed.

Lemma delete_app {K V} `{EqKey K} (k : K) (a b : JSMap.t K V) :
  JSMap.delete k (a ++ b) = JSMap.delete k a ++ JSMap.delete k b.
Proof.
  induction a as [|[k0 v0] rest IH]; simpl; auto.
  destruct (keqb k k0); simpl; now rewrite IH.
Qed.

Lemma In_keys_filter {K V} (f : K * V -> bool) (k : K) (m : list (K * V)) :
  In k (map fst (filter f m)) -> In k (map fst m).
Proof.
  rewrite !in_map_iff. intros [x [Hx Hin]].
  apply filter_In in Hin as [Hin _]. eauto.
Qed.

Lemma In_set_inv {K V} `{EqKey K} (k : K) (v : V) kv (m : JSMap.t K V) :
  In kv (JSMap.set k v m) -> kv = (k, v) \/ In kv m.
Proof.
  induction m as [|[k0 v0] rest IH]; simpl.
  - intuition.
  - destruct (keqb_spec k k0) as [->|Hn]; simpl; intuition.
Qed.

Lemma get_filter {K V} `{EqKey K} (f : K * V -> bool) k v (m : JSMap.t K V) :
  JSMap.wf m ->
  JSMap.get k (filter f m) = Some v <->
  JSMap.get k m = Some v /\ f (k, v) = true.
Proof.
  intros Hwf. split.
  - intros Hg. apply get_Some_In, filter_In in Hg as [Hin Hf].
    split; auto. now apply In_get.
  - intros [Hg Hf]. apply In_get.
    + now apply NoDup_keys_filter.
    + apply filter_In. split; auto. now apply get_Some_In.
Qed.

(** When no two entries carry the same value under different keys, the
    values are pairwise distinct. *)
Lemma NoDup_values {K V} (m : list (K * V)) :
  NoDup (map fst m) ->
  (forall k1 k2 v, In (k1, v) m -> In (k2, v) m -> k1 = k2) ->
  NoDup (map snd m).
Proof.
  induction m as [|[k v] rest IH]; simpl; intros Hnd Hinj; [constructor|].
  inversion Hnd as [|? ? Hni Hnd']; subst. constructor.
  - intros Hin. apply in_map_iff in Hin as [[k2 v2] [Hv Hin]].
    simpl in Hv. subst v2. apply Hni.
    assert (k = k2) as -> by (apply (Hinj k k2 v); auto).
    apply in_map_iff. exists (k2, v). auto.
  - apply IH; auto. intros k1 k2 v0 H1 H2. apply (Hinj k1 k2 v0); auto.
Qed.

(** The primary map after the loop: the live records, in their order. *)
Lemma rebuild_loop_sessions now pending pre idx :
  JSMap.wf (pre ++ pending) ->
  fst (rebuild_loop now pending
         (filter (fun e => now <? expires (snd e)) pre ++ pending) idx)
  = filter (fun e => now <? expires (snd e)) (pre ++ pending).
Proof.
  revert pre idx.
  induction pending as [|[sid sd] rest IH]; intros pre idx Hwf; simpl.
  - now rewrite !app_nil_r.
  - specialize (IH (pre ++ [(sid, sd)])).
    rewrite filter_app in IH. simpl in IH.
    destruct (now <? expires sd) eqn:Hlive.
    + rewrite <- !app_assoc in IH. simpl in IH. now apply IH.
    + rewrite app_nil_r in IH. rewrite <- !app_assoc in IH. simpl in IH.
      rewrite delete_app. cbn [JSMap.delete]. rewrite keqb_refl.
      pose proof Hwf as Hnd.
      unfold JSMap.wf, JSMap.keys in Hnd. rewrite map_app in Hnd.
      simpl in Hnd. apply NoDup_remove_2 in Hnd.
      rewrite !delete_absent.
      * now apply IH.
      * intros Hin. apply Hnd, in_or_app. now right.
      * intros Hin. apply Hnd, in_or_app. left.
        eapply In_keys_filter; eauto.
Qed.

(** Every entry of the index after the loop was there before it or comes
    from a live record the loop visited. *)
Lemma rebuild_loop_index_sound now pending ss idx e sid :
  In (e, sid) (snd (rebuild_loop now pending ss idx)) ->
  In (e, sid) idx
  \/ exists sd, In (sid, sd) pending /\ now < expires sd /\ expires sd = e.
Proof.
  revert ss idx.
  induction pending as [|[s d] rest IH]; intros ss idx; simpl; auto.
  destruct (Z.ltb_spec now (expires d)) as [Hlive|Hdead]; intros Hin;
    apply IH in Hin as [Hin|[sd [Hin [Hl He]]]]; eauto 6.
  apply In_set_inv in Hin as [Heq|Hin]; auto.
  inversion Heq; subst. eauto 6.
Qed.

(** The expiration time of every live record the loop visited is a key of
    the index after the loop. *)
Lemma rebuild_loop_index_complete now pending ss idx e :
  In e (JSMap.keys idx)
  \/ (exists sid sd, In (sid, sd) pending /\ now < expires sd
                     /\ expires sd = e) ->
  In e (JSMap.keys (snd (rebuild_loop now pending ss idx))).
Proof.
  revert ss idx.
  induction pending as [|[s d] rest IH]; intros ss idx; simpl.
  - intros [Hin|[sid [sd [[] _]]]]; auto.
  - intros Hcase.
    destruct (Z.ltb_spec now (expires d)) as [Hlive|Hdead]; apply IH.
    + destruct Hcase as [Hin|[sid [sd [[Heq|Hin] [Hl He]]]]].
      * left. apply In_keys_set. now right.
      * inversion Heq; subst. left. apply In_keys_set. now left.
      * right. eauto.
    + destruct Hcase as [Hin|[sid [sd [[Heq|Hin] [Hl He]]]]].
      * now left.
      * inversion Heq; subst. lia.
      * right. eauto.
Qed.

(** C4 as it is worded does not hold: of two live records set within the
    same millisecond, the rebuilt index has an entry for the second only;
    ["s1"] is live at time 1 and has no entry [100 -> "s1"]. *)
Lemma rebuild_omits_record_of_equal_expiry :
  ~ (forall sid sd,
       JSMap.get sid (sessions (rebuildIndex 1 Samples.same_instant))
       = Some sd ->
       1 < expires sd ->
       In (expires sd, sid)
          (expirationIndex (rebuildIndex 1 Samples.same_instant))).
Proof.
  intros Hall.
  specialize (Hall "s1" {| data := Samples.payload_a; expires := 100 |}
                   eq_refl eq_refl).
  vm_compute in Hall. destruct Hall as [Heq|[]]. discriminate.
Qed.

(** C4, amended: after [rebuildIndex] the primary map holds the records
    whose expiration time lies after [now] and no other; the index is a new
    one, built from those records alone: each of its entries [e -> sid]
    names a live record whose expiration time is [e], so no id occurs in it
    twice and no entry is stale; and for every live record the index has an
    entry under its expiration time, naming a live record with that
    expiration time. *)
Theorem rebuildIndex_spec now st :
  JSMap.wf (sessions st) ->
  let st' := rebuildIndex now st in
  sessions st' = filter (fun e => now <? expires (snd e)) (sessions st)
  /\ (forall sid sd,
        JSMap.get sid (sessions st') = Some sd <->
        JSMap.get sid (sessions st) = Some sd /\ now < expires sd)
  /\ (forall e sid,
        In (e, sid) (expirationIndex st') ->
        exists sd, JSMap.get sid (sessions st') = Some sd /\ expires sd = e)
  /\ (forall sid sd,
        JSMap.get sid (sessions st') = Some sd ->
        exists sid' sd',
          JSMap.get (expires sd) (expirationIndex st') = Some sid'
          /\ JSMap.get sid' (sessions st') = Some sd'
          /\ expires sd' = expires sd)
  /\ JSMap.wf (expirationIndex st')
  /\ NoDup (map snd (expirationIndex st'))
  /\ maxAge st' = maxAge st.
Proof.
  intros Hwf. unfold rebuildIndex.
  pose proof (rebuild_loop_sessions now (sessions st) [] JSMap.empty Hwf)
    as Hss.
  pose proof (fun e sid =>
                rebuild_loop_index_sound now (sessions st) (sessions st)
                  JSMap.empty e sid) as Hsound.
  pose proof (fun e =>
                rebuild_loop_index_complete now (sessions st) (sessions st)
                  JSMap.empty e) as Hcompl.
  destruct (wf_rebuild_loop now (sessions st) (sessions st) JSMap.empty
              Hwf wf_empty) as [_ Hwfi].
  simpl in Hss.
  destruct (rebuild_loop now (sessions st) (sessions st) JSMap.empty)
    as [ss idx].
  simpl in *. subst ss.
  assert (Hget : forall sid sd,
             JSMap.get sid
               (filter (fun e => now <? expires (snd e)) (sessions st))
             = Some sd <->
             JSMap.get sid (sessions st) = Some sd /\ now < expires sd).
  { intros sid sd. rewrite get_filter by assumption. simpl.
    rewrite Z.ltb_lt. tauto. }
  assert (Hentry : forall e sid,
             In (e, sid) idx ->
             exists sd,
               JSMap.get sid
                 (filter (fun e => now <? expires (snd e)) (sessions st))
               = Some sd /\ expires sd = e).
  { intros e sid Hin.
    apply Hsound in Hin as [[]|[sd [Hin [Hlive He]]]].
    exists sd. split; auto. apply Hget. split; auto. now apply In_get. }
  repeat apply conj; auto.
  - intros sid sd Hg.
    assert (Hk : In (expires sd) (JSMap.keys idx)).
    { apply Hcompl. right. exists sid, sd. apply Hget in Hg as [Hg Hlive].
      repeat split; auto. now apply get_Some_In. }
    destruct (JSMap.get (expires sd) idx) as [sid'|] eqn:Hi.
    + destruct (Hentry (expires sd) sid') as [sd' [Hg' He']].
      * now apply get_Some_In.
      * exists sid', sd'. auto.
    + apply get_None_keys in Hi. tauto.
  - apply NoDup_values; auto.
    intros e1 e2 sid H1 H2.
    apply Hentry in H1 as [sd1 [Hg1 <-]].
    apply Hentry in H2 as [sd2 [Hg2 <-]].
    congruence.
Qed.

(** An instance, the store whose index holds a stale entry of
    ["s1"]: the expired record of ["s2"] goes, the index keeps one entry. *)
Lemma rebuildIndex_spec_witness :
  JSMap.wf (sessions Samples.stale_index)
  /\ expirationIndex Samples.stale_index
     = [(100, "s1"); (101, "s2"); (105, "s1")]
  /\ sessions (rebuildIndex 103 Samples.stale_index)
     = [("s1", {| data := Samples.payload_a; expires := 105 |})]
  /\ expirationIndex (rebuildIndex 103 Samples.stale_index) = [(105, "s1")].
Proof.
  assert (Hwf : JSMap.wf (sessions Samples.stale_index)).
  { repeat constructor; simpl; intuition discriminate. }
  destruct (rebuildIndex_spec 103 Samples.stale_index Hwf) as [Hss _].
  split; [exact Hwf|]. split; [reflexivity|].
  split; [rewrite Hss; reflexivity | reflexivity].
Defined.

(** ** [cleanupSessions] *)

Lemma index_destroy_subset sid st e :
  In e (JSMap.keys (expirationIndex (fst (destroy sid st)))) ->
  In e (JSMap.keys (expirationIndex st)).
Proof.
  unfold destroy. destruct (JSMap.get sid (sessions st)); simpl; auto.
  intros Hin. now apply In_keys_delete in Hin.
Qed.

(** When the entries the iterator still has to visit are in ascending order
    of expiration time and cover the index, the loop leaves no entry at or
    before [now]. *)
Lemma cleanup_loop_sorted now pending st :
  StronglySorted Z.le (map fst pending) ->
  (forall e, In e (JSMap.keys (expirationIndex st)) ->
             In e (map fst pending)) ->
  forall e, In e (JSMap.keys (expirationIndex (cleanup_loop now pending st))) ->
            now < e.
Proof.
  revert st.
  induction pending as [|[e0 sid] rest IH]; intros st Hsorted Hcover e;
    simpl in *.
  - intros Hin. destruct (Hcover e Hin).
  - inversion Hsorted as [|? ? Hsorted' Hall]; subst.
    destruct (JSMap.has e0 (expirationIndex st)) eqn:Hhas.
    + destruct (Z.leb_spec e0 now) as [Hexp|Hlive].
      * apply IH; auto. simpl. intros e1 Hin.
        apply In_keys_delete in Hin as [Hin Hne].
        apply index_destroy_subset, Hcover in Hin.
        destruct Hin; congruence.
      * intros Hin. apply Hcover in Hin as [<-|Hin]; auto.
        rewrite Forall_forall in Hall. apply Hall in Hin. lia.
    + apply IH; auto. intros e1 Hin.
      destruct (Hcover e1 Hin) as [<-|Hrest]; auto.
      apply has_true in Hin. congruence.
Qed.

(** On an index whose insertion order is the ascending order of expiration
    times, one pass of [cleanupSessions] removes every entry with
    [expires <= now]. *)
Lemma cleanupSessions_sorted now st :
  StronglySorted Z.le (JSMap.keys (expirationIndex st)) ->
  forall e, In e (JSMap.keys (expirationIndex (cleanupSessions now st))) ->
            now < e.
Proof.
  intros Hsorted. apply cleanup_loop_sorted; auto.
Qed.

(** *** The order of the index along a history without rebuilds *)

Lemma keys_set_cases {K V} `{EqKey K} (k : K) (v : V) (m : JSMap.t K V) :
  JSMap.keys (JSMap.set k v m) = JSMap.keys m
  \/ JSMap.keys (JSMap.set k v m) = JSMap.keys m ++ [k].
Proof.
  induction m as [|[k0 v0] rest IH]; simpl.
  - now right.
  - destruct (keqb k k0); simpl; [now left|].
    destruct IH as [->| ->]; auto.
Qed.

Lemma sorted_snoc (l : list Z) (k : Z) :
  StronglySorted Z.le l -> Forall (fun e => e <= k) l ->
  StronglySorted Z.le (l ++ [k]).
Proof.
  induction 1 as [|a l Hs IH Ha]; intros Hb; simpl.
  - repeat constructor.
  - inversion Hb; subst. constructor; auto.
    apply Forall_app. split; auto.
Qed.

Lemma sorted_keys_delete {V} (k : Z) (m : JSMap.t Z V) :
  StronglySorted Z.le (JSMap.keys m) ->
  StronglySorted Z.le (JSMap.keys (JSMap.delete k m)).
Proof.
  induction m as [|[k0 v0] rest IH]; simpl; auto.
  intros Hs. inversion Hs as [|? ? Hs' Hall]; subst.
  destruct (k =? k0); simpl; auto.
  constructor; auto. rewrite Forall_forall in *. intros e Hin.
  apply Hall. change (In e (JSMap.keys (JSMap.delete k rest))) in Hin.
  now apply In_keys_delete in Hin.
Qed.

Lemma bounded_keys_delete {V} (k b : Z) (m : JSMap.t Z V) :
  Forall (fun e => e <= b) (JSMap.keys m) ->
  Forall (fun e => e <= b) (JSMap.keys (JSMap.delete k m)).
Proof.
  rewrite !Forall_forall. intros Hb e Hin.
  apply In_keys_delete in Hin. now apply Hb.
Qed.

(** Entering a key that is at least every key present keeps the index in
    ascending order. *)
Lemma sorted_keys_set {V} (k : Z) (v : V) (m : JSMap.t Z V) :
  StronglySorted Z.le (JSMap.keys m) ->
  Forall (fun e => e <= k) (JSMap.keys m) ->
  StronglySorted Z.le (JSMap.keys (JSMap.set k v m))
  /\ Forall (fun e => e <= k) (JSMap.keys (JSMap.set k v m)).
Proof.
  intros Hs Hb. destruct (keys_set_cases k v m) as [->| ->]; auto.
  split; [now apply sorted_snoc|].
  apply Forall_app. split; auto. constructor; [lia|constructor].
Qed.

Lemma bounded_weaken (b b' : Z) (l : list Z) :
  b <= b' -> Forall (fun e => e <= b) l -> Forall (fun e => e <= b') l.
Proof.
  intros Hle. apply Forall_impl. intros e He. lia.
Qed.

Lemma index_order_destroy sid b st :
  StronglySorted Z.le (JSMap.keys (expirationIndex st))
  /\ Forall (fun e => e <= b) (JSMap.keys (expirationIndex st)) ->
  StronglySorted Z.le (JSMap.keys (expirationIndex (fst (destroy sid st))))
  /\ Forall (fun e => e <= b)
            (JSMap.keys (expirationIndex (fst (destroy sid st)))).
Proof.
  intros [Hs Hb]. unfold destroy.
  destruct (JSMap.get sid (sessions st)); simpl; auto.
  split; [now apply sorted_keys_delete | now apply bounded_keys_delete].
Qed.

Lemma index_order_cleanup_loop now pending b st :
  StronglySorted Z.le (JSMap.keys (expirationIndex st))
  /\ Forall (fun e => e <= b) (JSMap.keys (expirationIndex st)) ->
  StronglySorted Z.le
    (JSMap.keys (expirationIndex (cleanup_loop now pending st)))
  /\ Forall (fun e => e <= b)
            (JSMap.keys (expirationIndex (cleanup_loop now pending st))).
Proof.
  revert st. induction pending as [|[e sid] rest IH]; intros st Hinv; simpl; auto.
  destruct (JSMap.has e (expirationIndex st)); auto.
  destruct (e <=? now); auto.
  apply IH. simpl.
  destruct (index_order_destroy sid b st Hinv) as [Hs Hb].
  split; [now apply sorted_keys_delete | now apply bounded_keys_delete].
Qed.

(** A call other than [rebuildIndex], run at a clock reading that is not
    before the earlier ones, keeps the index in ascending order of
    expiration time. *)
Lemma index_order_step op t now st :
  op <> OpRebuild -> t <= now ->
  StronglySorted Z.le (JSMap.keys (expirationIndex st))
  /\ Forall (fun e => e <= t + maxAge st) (JSMap.keys (expirationIndex st)) ->
  StronglySorted Z.le (JSMap.keys (expirationIndex (step op now st)))
  /\ Forall (fun e => e <= now + maxAge (step op now st))
            (JSMap.keys (expirationIndex (step op now st))).
Proof.
  intros Hop Hle [Hs Hb]. rewrite maxAge_step.
  assert (Hb' : Forall (fun e => e <= now + maxAge st)
                       (JSMap.keys (expirationIndex st)))
    by (eapply bounded_weaken; [|exact Hb]; lia).
  destruct op as [s p|s|s|s p| | | | |]; simpl; auto.
  - now apply sorted_keys_set.
  - unfold get. destruct (JSMap.get s (sessions st)) as [d|]; simpl; auto.
    destruct (expires d <? now); simpl; auto.
    now apply index_order_destroy.
  - now apply index_order_destroy.
  - unfold touch. destruct (JSMap.get s (sessions st)) as [d|]; simpl; auto.
    apply sorted_keys_set;
      [now apply sorted_keys_delete | now apply bounded_keys_delete].
  - split; constructor.
  - now apply index_order_cleanup_loop.
  - congruence.
Qed.

Lemma index_order_run calls t st :
  Forall (fun call => snd call <> OpRebuild) calls ->
  clock_monotone t calls ->
  StronglySorted Z.le (JSMap.keys (expirationIndex st))
  /\ Forall (fun e => e <= t + maxAge st) (JSMap.keys (expirationIndex st)) ->
  StronglySorted Z.le (JSMap.keys (expirationIndex (run calls st))).
Proof.
  revert t st.
  induction calls as [|[now op] rest IH]; intros t st Hops Hclock Hinv; simpl.
  - apply Hinv.
  - inversion Hops as [|? ? Hop Hops']; subst. destruct Hclock as [Hle Hclock].
    apply (IH now); auto. now apply (index_order_step op t).
Qed.

(** On a store whose history holds no [rebuildIndex] and whose clock never
    went back, a cleanup pass leaves no index entry at or before [now]. *)
Lemma cleanup_without_rebuild o t0 calls now :
  Forall (fun call => snd call <> OpRebuild) calls ->
  clock_monotone t0 calls ->
  forall e,
    In e (JSMap.keys (expirationIndex (cleanupSessions now (run calls (new o))))) ->
    now < e.
Proof.
  intros Hops Hclock. apply cleanupSessions_sorted.
  apply (index_order_run calls t0); auto.
  split; constructor.
Qed.

(** C1, on a store reached under a clock that never goes back: ["s1"] is
    set at 0, ["s2"] at 1, ["s1"] again at 5, and the index is rebuilt at 6.
    The rebuilt index follows the order of the primary map, [105] before
    [101]. The cleanup pass at 102 meets [105 -> "s1"] first and stops; the
    entry [101 -> "s2"], expired at 102, stays in the index and its record
    in the primary map. *)
Theorem cleanup_stops_before_expired_entry :
  clock_monotone 0 (Samples.refreshed_calls ++ [(102, OpCleanup)])
  /\ expirationIndex Samples.refreshed = [(105, "s1"); (101, "s2")]
  /\ cleanupSessions 102 Samples.refreshed = Samples.refreshed
  /\ JSMap.get 101 (expirationIndex (cleanupSessions 102 Samples.refreshed))
     = Some "s2"
  /\ expires_of "s2" (cleanupSessions 102 Samples.refreshed) = Some 101
  /\ 101 <= 102.
Proof.
  split; [simpl; repeat split; lia|].
  split; [reflexivity|]. split; [reflexivity|].
  split; [reflexivity|]. split; [reflexivity|]. lia.
Qed.

End MemoryFacts.

(** * The file backend: the outcomes of [get] *)

Module FileFacts.
Import FileStore.

Section Outcomes.
Context {rt : NodeRuntime}.

Lemma fst_destroy sid store fs :
  fst (destroy sid store fs) = fst (unlink (getFilePath store sid) fs).
Proof.
  unfold destroy. destruct (unlink (getFilePath store sid) fs) as [fs' [code|]];
    simpl; auto.
  now destruct (String.eqb code "ENOENT").
Qed.

(** C8: [get] tells four outcomes apart. A missing file ([ENOENT]) is "no
    record", without an error. A file whose text does not parse is the error
    "Failed to parse session data". A record whose [expires] is a date at or
    before [now] has its file unlinked and is "no record". Any other failure
    of the read is the error "Failed to read session data". The two errors
    differ from each other and from "no record". *)
Theorem get_outcomes sid now store fs :
  let p := getFilePath store sid in
  (readFile p fs = inr "ENOENT" -> get sid now store fs = (fs, NoValue))
  /\ (forall data,
        readFile p fs = inl data -> JSON_parse data = None ->
        get sid now store fs = (fs, Failure "Failed to parse session data"))
  /\ (forall data sessionData iso time,
        readFile p fs = inl data -> JSON_parse data = Some sessionData ->
        prop sessionData "expires" = Some (JStr iso) -> iso <> "" ->
        Date_of (JStr iso) = Some time -> time <= now ->
        get sid now store fs = (fst (unlink p fs), NoValue))
  /\ (forall code,
        readFile p fs = inr code -> code <> "ENOENT" ->
        get sid now store fs = (fs, Failure "Failed to read session data"))
  /\ "Failed to parse session data" <> "Failed to read session data"
  /\ (forall msg, @Failure JsValue msg <> NoValue).
Proof.
  simpl. unfold get. repeat apply conj.
  - now intros ->.
  - now intros data -> ->.
  - intros data sessionData iso time -> -> Hexp Hiso Hdate Hdue.
    unfold get_parsed. rewrite Hexp. unfold date_le. rewrite Hdate. simpl.
    destruct (String.eqb_spec iso "") as [->|_]; [congruence|]. simpl.
    destruct (Z.leb_spec time now); [|lia].
    now rewrite fst_destroy.
  - intros code -> Hcode.
    destruct (String.eqb_spec code "ENOENT"); congruence.
  - discriminate.
  - discriminate.
Qed.

End Outcomes.

(** An instance, the sample directory at time 200: no file for
    ["s9"]; a torn file; the record of ["s1"], due at 100, whose file is
    removed; a file that cannot be read. *)
Lemma get_outcomes_witness :
  get (rt := SampleRuntime.runtime) "s9" 200 SampleRuntime.store SampleRuntime.sample_disk
  = (SampleRuntime.sample_disk, NoValue)
  /\ get (rt := SampleRuntime.runtime) "torn" 200 SampleRuntime.store SampleRuntime.sample_disk
     = (SampleRuntime.sample_disk, Failure "Failed to parse session data")
  /\ get (rt := SampleRuntime.runtime) "s1" 200 SampleRuntime.store SampleRuntime.sample_disk
     = ([("sessions/torn.json", inl "{");
         ("sessions/locked.json", inr "EACCES")], NoValue)
  /\ get (rt := SampleRuntime.runtime) "locked" 200 SampleRuntime.store SampleRuntime.sample_disk
     = (SampleRuntime.sample_disk, Failure "Failed to read session data").
Proof.
  split; [|split; [|split]].
  - apply (get_outcomes (rt := SampleRuntime.runtime) "s9" 200 SampleRuntime.store
             SampleRuntime.sample_disk). reflexivity.
  - apply (get_outcomes (rt := SampleRuntime.runtime) "torn" 200 SampleRuntime.store
             SampleRuntime.sample_disk) with (data := "{"); reflexivity.
  - apply (proj1 (proj2 (proj2
             (get_outcomes (rt := SampleRuntime.runtime) "s1" 200 SampleRuntime.store
                SampleRuntime.sample_disk))))
      with (data := "record of s1") (sessionData := SampleRuntime.record_s1)
           (iso := "1970-01-01T00:00:00.100Z") (time := 100);
      try reflexivity; [discriminate | lia].
  - apply (get_outcomes (rt := SampleRuntime.runtime) "locked" 200 SampleRuntime.store
             SampleRuntime.sample_disk) with (code := "EACCES");
      [reflexivity | discriminate].
Defined.

End FileFacts.

(** * The memory backend: histories, reclamation and counting *)

Module MemoryMore.
Import MemoryStore MemoryFacts.

(** ** Records come from [set] alone *)

Lemma absent_step op now st sid :
  JSMap.get sid (sessions st) = None ->
  (forall session, op <> OpSet sid session) ->
  JSMap.get sid (sessions (step op now st)) = None.
Proof.
  intros Habsent Hop.
  destruct (JSMap.get sid (sessions (step op now st))) as [sd|] eqn:Hg; auto.
  exfalso.
  assert (Hkeep : JSMap.get sid (sessions st) = Some sd -> False)
    by (rewrite Habsent; discriminate).
  destruct op as [s p|s|s|s p| | | | |]; simpl in Hg; auto.
  - destruct (keqb_spec s sid) as [->|Hn]; [now apply (Hop p)|].
    rewrite get_set_neq in Hg by assumption. auto.
  - unfold get in Hg. destruct (JSMap.get s (sessions st)) as [d|]; auto.
    destruct (expires d <? now); auto.
    apply Hkeep. eapply sessions_destroy; eauto.
  - apply Hkeep. eapply sessions_destroy; eauto.
  - unfold touch in Hg.
    destruct (JSMap.get s (sessions st)) as [d|] eqn:Hs; auto.
    simpl in Hg. destruct (keqb_spec s sid) as [->|Hn]; [congruence|].
    rewrite get_set_neq in Hg by assumption. auto.
  - discriminate.
  - apply Hkeep. eapply sessions_cleanup_loop; eauto.
  - apply Hkeep. unfold rebuildIndex in Hg.
    pose proof (sessions_rebuild_loop now (sessions st) (sessions st)
                  JSMap.empty sid sd) as Hr.
    destruct (rebuild_loop now (sessions st) (sessions st) JSMap.empty).
    auto.
Qed.

Lemma absent_run calls st sid :
  JSMap.get sid (sessions st) = None ->
  Forall (fun call => forall session, snd call <> OpSet sid session) calls ->
  JSMap.get sid (sessions (run calls st)) = None.
Proof.
  revert st. induction calls as [|[now op] rest IH]; intros st Habsent Hops;
    simpl; auto.
  inversion Hops as [|? ? Hop Hops']; subst.
  apply IH; auto. now apply absent_step.
Qed.

Lemma absent_replies sid now st :
  JSMap.get sid (sessions st) = None ->
  get sid now st = (st, NoValue)
  /\ forall pairs, snd (all now st) = Value pairs -> ~ In sid (map fst pairs).
Proof.
  intros Habsent. split.
  - unfold get. now rewrite Habsent.
  - intros pairs [= <-] Hin. rewrite map_map in Hin. simpl in Hin.
    apply In_keys_filter in Hin.
    apply get_None_keys in Habsent. contradiction.
Qed.

(** An id that no call of a history ever set has no record: whatever else
    was called on a fresh store, [get] replies without a value and leaves
    the store alone, and [all] does not list the id. *)
Theorem never_set_is_absent o calls sid now :
  Forall (fun call => forall session, snd call <> OpSet sid session) calls ->
  get sid now (run calls (new o)) = (run calls (new o), NoValue)
  /\ forall pairs,
       snd (all now (run calls (new o))) = Value pairs ->
       ~ In sid (map fst pairs).
Proof.
  intros Hops. apply absent_replies. now apply absent_run.
Qed.

Lemma never_set_is_absent_witness :
  Forall (fun call => forall session, snd call <> OpSet "s2" session)
         MoreSamples.calls_without_s2
  /\ get "s2" 202 (run MoreSamples.calls_without_s2 (new (Some 100)))
     = (run MoreSamples.calls_without_s2 (new (Some 100)), NoValue).
Proof.
  assert (Hops : Forall (fun call => forall session,
                             snd call <> OpSet "s2" session)
                        MoreSamples.calls_without_s2)
    by (repeat constructor; simpl; intros; discriminate).
  split; [exact Hops|].
  exact (proj1 (never_set_is_absent (Some 100) MoreSamples.calls_without_s2
                  "s2" 202 Hops)).
Defined.

(** After [destroy] an id stays without a record through every later call
    until it is set again: [get] replies without a value and [all] does not
    list it. *)
Theorem destroy_then_absent st sid calls now :
  Forall (fun call => forall session, snd call <> OpSet sid session) calls ->
  let st' := run calls (fst (destroy sid st)) in
  get sid now st' = (st', NoValue)
  /\ forall pairs, snd (all now st') = Value pairs -> ~ In sid (map fst pairs).
Proof.
  intros Hops. apply absent_replies. apply absent_run; auto.
  unfold destroy. destruct (JSMap.get sid (sessions st)) eqn:Hg; simpl; auto.
  apply get_delete_eq.
Qed.

Lemma destroy_then_absent_witness :
  Forall (fun call => forall session, snd call <> OpSet "s2" session)
         MoreSamples.calls_without_s2
  /\ get "s2" 202
       (run MoreSamples.calls_without_s2
            (fst (destroy "s2" Samples.two_records)))
     = (run MoreSamples.calls_without_s2
            (fst (destroy "s2" Samples.two_records)), NoValue).
Proof.
  assert (Hops : Forall (fun call => forall session,
                             snd call <> OpSet "s2" session)
                        MoreSamples.calls_without_s2)
    by (repeat constructor; simpl; intros; discriminate).
  split; [exact Hops|].
  exact (proj1 (destroy_then_absent Samples.two_records "s2"
                  MoreSamples.calls_without_s2 202 Hops)).
Defined.

(** [clear] empties both maps, and until the next [set] every call leaves
    them empty: [touch] creates nothing, [length] replies 0 and [all] an
    empty list. *)
Theorem clear_stays_empty st calls now :
  Forall (fun call => forall sid session, snd call <> OpSet sid session)
         calls ->
  let st' := run calls (fst (clear st)) in
  st' = {| sessions := []; expirationIndex := []; maxAge := maxAge st |}
  /\ snd (length st') = Value 0%nat
  /\ snd (all now st') = Value [].
Proof.
  intros Hops.
  assert (Hrun : run calls (fst (clear st))
                 = {| sessions := []; expirationIndex := [];
                      maxAge := maxAge st |}).
  { unfold clear. simpl. generalize (maxAge st) as m. intros m.
    induction calls as [|[t op] rest IH]; simpl; auto.
    inversion Hops as [|? ? Hop Hops']; subst.
    destruct op as [s p|s|s|s p| | | | |]; simpl; auto.
    exfalso. now apply (Hop s p). }
  intros st'. subst st'. rewrite Hrun. repeat split.
Qed.

Lemma clear_stays_empty_witness :
  Forall (fun call => forall sid session, snd call <> OpSet sid session)
         MoreSamples.calls_without_set
  /\ run MoreSamples.calls_without_set (fst (clear Samples.two_records))
     = {| sessions := []; expirationIndex := []; maxAge := 100 |}.
Proof.
  assert (Hops : Forall (fun call => forall sid session,
                             snd call <> OpSet sid session)
                        MoreSamples.calls_without_set)
    by (repeat constructor; simpl; intros; discriminate).
  split; [exact Hops|].
  exact (proj1 (clear_stays_empty Samples.two_records
                  MoreSamples.calls_without_set 0 Hops)).
Defined.

(** ** [length] and [all] *)

Lemma rebuildIndex_fields now st :
  rebuildIndex now st
  = {| sessions :=
         fst (rebuild_loop now (sessions st) (sessions st) JSMap.empty);
       expirationIndex :=
         snd (rebuild_loop now (sessions st) (sessions st) JSMap.empty);
       maxAge := maxAge st |}.
Proof.
  unfold rebuildIndex.
  now destruct (rebuild_loop now (sessions st) (sessions st) JSMap.empty).
Qed.

Lemma sessions_rebuildIndex now st :
  JSMap.wf (sessions st) ->
  sessions (rebuildIndex now st)
  = filter (fun e => now <? expires (snd e)) (sessions st).
Proof.
  intros Hwf. rewrite rebuildIndex_fields. simpl.
  exact (rebuild_loop_sessions now (sessions st) [] JSMap.empty Hwf).
Qed.

Lemma filter_twice {A} (f g : A -> bool) (l : list A) :
  (forall x, g x = true -> f x = true) ->
  filter g (filter f l) = filter g l.
Proof.
  intros Himp. induction l as [|x rest IH]; simpl; auto.
  destruct (f x) eqn:Hf; simpl.
  - now rewrite IH.
  - destruct (g x) eqn:Hg; auto. apply Himp in Hg. congruence.
Qed.

(** [length] counts every record of the primary map, the expired ones that
    were not reclaimed included, so it is at least the number of pairs
    [all] returns; once [rebuildIndex] has run at that instant the two
    agree, and [all] returns what it returned before. *)
Theorem length_counts_unreclaimed now st :
  JSMap.wf (sessions st) ->
  exists n pairs,
    snd (length st) = Value n
    /\ snd (all now st) = Value pairs
    /\ (List.length pairs <= n)%nat
    /\ snd (length (rebuildIndex now st)) = Value (List.length pairs)
    /\ snd (all now (rebuildIndex now st)) = Value pairs.
Proof.
  intros Hwf. unfold length, all. simpl. do 2 eexists.
  split; [reflexivity|]. split; [reflexivity|].
  rewrite sessions_rebuildIndex by assumption.
  rewrite filter_twice by auto.
  unfold JSMap.size. rewrite !length_map.
  repeat split. apply filter_length_le.
Qed.

Lemma length_counts_unreclaimed_witness :
  JSMap.wf (sessions Samples.two_records)
  /\ snd (length Samples.two_records) = Value 2%nat
  /\ snd (all 100 Samples.two_records) = Value [("s2", Samples.payload_b)]
  /\ snd (length (rebuildIndex 100 Samples.two_records)) = Value 1%nat.
Proof.
  assert (Hwf : JSMap.wf (sessions Samples.two_records)).
  { repeat constructor; simpl; intuition discriminate. }
  destruct (length_counts_unreclaimed 100 Samples.two_records Hwf)
    as (n & pairs & Hn & Hpairs & _ & Hrebuilt & _).
  split; [exact Hwf|]. split; [reflexivity|]. split; [reflexivity|].
  rewrite Hrebuilt. inversion Hpairs. reflexivity.
Defined.

Lemma keys_set_present {K V} `{EqKey K} (k : K) (v : V) (m : JSMap.t K V) :
  JSMap.has k m = true -> JSMap.keys (JSMap.set k v m) = JSMap.keys m.
Proof.
  unfold JSMap.has. induction m as [|[k0 v0] rest IH]; simpl; [discriminate|].
  destruct (keqb_spec k k0) as [->|Hn]; simpl; auto.
  intros Hh. now rewrite IH.
Qed.

(** The number of records after [set]: one more for a new id, which goes
    last in the primary map; the same for an id that has a record, whose
    place in the primary map is kept. *)
Theorem set_length sid session now st :
  (JSMap.has sid (sessions st) = true ->
     snd (length (fst (set sid session now st))) = snd (length st)
     /\ JSMap.keys (sessions (fst (set sid session now st)))
        = JSMap.keys (sessions st))
  /\ (JSMap.has sid (sessions st) = false ->
        snd (length (fst (set sid session now st)))
        = Value (S (JSMap.size (sessions st)))
        /\ JSMap.keys (sessions (fst (set sid session now st)))
           = JSMap.keys (sessions st) ++ [sid]).
Proof.
  unfold length, set. simpl. unfold JSMap.size. split; intros Hhas.
  - assert (Hk := keys_set_present sid
                    {| data := spread session; expires := now + maxAge st |}
                    (sessions st) Hhas).
    split; auto.
    rewrite <- (length_map fst), <- (length_map fst (sessions st)).
    unfold JSMap.keys in Hk. now rewrite Hk.
  - assert (Hnone : JSMap.get sid (sessions st) = None).
    { unfold JSMap.has in Hhas. now destruct (JSMap.get sid (sessions st)). }
    rewrite keys_set_fresh by assumption.
    unfold JSMap.keys. rewrite map_app, length_app. simpl.
    split; auto. f_equal. lia.
Qed.

Lemma set_length_witness :
  snd (length (fst (set "s1" Samples.payload_b 9 Samples.two_records)))
  = Value 2%nat
  /\ snd (length (fst (set "s3" Samples.payload_b 9 Samples.two_records)))
     = Value 3%nat.
Proof.
  split.
  - rewrite (proj1 (proj1 (set_length "s1" Samples.payload_b 9
                             Samples.two_records) eq_refl)).
    reflexivity.
  - exact (proj1 (proj2 (set_length "s3" Samples.payload_b 9
                           Samples.two_records) eq_refl)).
Defined.

(** ** Expiry on [get] and revival by [touch] *)

(** A record set at [now] is handed back by [get] up to and including the
    reading [now + maxAge]; at any later reading [get] replies without a
    value and removes the record and the index entry of its expiration
    time. *)
Theorem get_after_set_boundary sid session now now' st :
  JSMap.wf session ->
  let st1 := fst (set sid session now st) in
  (now' <= now + maxAge st -> get sid now' st1 = (st1, Value session))
  /\ (now + maxAge st < now' ->
        snd (get sid now' st1) = NoValue
        /\ JSMap.get sid (sessions (fst (get sid now' st1))) = None
        /\ JSMap.get (now + maxAge st)
             (expirationIndex (fst (get sid now' st1))) = None).
Proof.
  intros Hobj st1.
  pose proof (get_cases sid now' st1) as Hc.
  assert (Hrec : JSMap.get sid (sessions st1)
                 = Some {| data := session; expires := now + maxAge st |}).
  { subst st1. simpl. rewrite get_set_eq, (spread_object _ Hobj). auto. }
  rewrite Hrec in Hc. simpl in Hc. destruct Hc as [Hmiss Hhit].
  split; [exact Hhit|].
  intros Hlate. rewrite (Hmiss Hlate). simpl.
  unfold destroy. rewrite Hrec. simpl.
  repeat split; apply get_delete_eq.
Qed.

Lemma get_after_set_boundary_witness :
  JSMap.wf Samples.payload_a
  /\ snd (get "s1" 100 (fst (set "s1" Samples.payload_a 0 Samples.store100)))
     = Value Samples.payload_a
  /\ snd (get "s1" 101 (fst (set "s1" Samples.payload_a 0 Samples.store100)))
     = NoValue.
Proof.
  assert (Hobj : JSMap.wf Samples.payload_a)
    by (repeat constructor; simpl; tauto).
  destruct (get_after_set_boundary "s1" Samples.payload_a 0 100
              Samples.store100 Hobj) as [Hhit _].
  destruct (get_after_set_boundary "s1" Samples.payload_a 0 101
              Samples.store100 Hobj) as [_ Hmiss].
  split; [exact Hobj|]. split.
  - rewrite Hhit; [reflexivity | vm_compute; discriminate].
  - apply Hmiss. reflexivity.
Defined.

(** [touch] does not look at the expiration time: a record that [get] would
    no longer hand back, because its time has passed, is live again after
    [touch], with the payload [touch] was given. *)
Theorem touch_revives_expired sid session now st sd :
  JSMap.get sid (sessions st) = Some sd ->
  expires sd < now ->
  0 <= maxAge st ->
  snd (get sid now st) = NoValue
  /\ get sid now (fst (touch sid session now st))
     = (fst (touch sid session now st), Value session).
Proof.
  intros Hsd Hexp Hage. split.
  - pose proof (get_cases sid now st) as Hc. rewrite Hsd in Hc.
    destruct Hc as [Hmiss _]. now rewrite (Hmiss Hexp).
  - unfold touch. rewrite Hsd. simpl.
    match goal with
    | |- get _ _ ?s = _ => pose proof (get_cases sid now s) as Hc
    end.
    simpl in Hc. rewrite get_set_eq in Hc. simpl in Hc.
    apply Hc. lia.
Qed.

Lemma touch_revives_expired_witness :
  snd (get "s1" 150 Samples.one_record) = NoValue
  /\ snd (get "s1" 150
            (fst (touch "s1" Samples.payload_b 150 Samples.one_record)))
     = Value Samples.payload_b.
Proof.
  destruct (touch_revives_expired "s1" Samples.payload_b 150
              Samples.one_record
              {| data := Samples.payload_a; expires := 100 |}
              eq_refl eq_refl) as [Hmiss Hhit].
  - vm_compute. discriminate.
  - split; [exact Hmiss|]. now rewrite Hhit.
Defined.

Lemma In_set_self {K V} `{EqKey K} (k : K) (v : V) (m : JSMap.t K V) :
  In (k, v) (JSMap.set k v m).
Proof.
  induction m as [|[k0 v0] rest IH]; simpl; auto.
  destruct (keqb_spec k k0) as [->|Hn]; simpl; auto.
Qed.

(** A record that was set is listed by [all], with the payload it was set
    with, at every reading of the clock before [now + maxAge]; from
    [now + maxAge] on it is not listed. *)
Theorem set_then_all sid session now now' st :
  JSMap.wf session ->
  exists pairs,
    snd (all now' (fst (set sid session now st))) = Value pairs
    /\ (now' < now + maxAge st -> In (sid, session) pairs)
    /\ (JSMap.wf (sessions st) -> now + maxAge st <= now' ->
        ~ In sid (map fst pairs)).
Proof.
  intros Hobj. unfold all, set. simpl. eexists. split; [reflexivity|].
  rewrite (spread_object _ Hobj). split.
  - intros Hlive. apply in_map_iff.
    exists (sid, {| data := session; expires := now + maxAge st |}).
    split; auto. apply filter_In. split; [apply In_set_self|].
    simpl. lia.
  - intros Hwf Hdead Hin. rewrite map_map in Hin. simpl in Hin.
    apply in_map_iff in Hin as [[sid' sd] [Heq Hin]]. simpl in Heq. subst sid'.
    apply filter_In in Hin as [Hin Hlive]. simpl in Hlive.
    apply In_get in Hin; [|now apply wf_set].
    rewrite get_set_eq in Hin. inversion Hin; subst. simpl in Hlive. lia.
Qed.

Lemma set_then_all_witness :
  JSMap.wf Samples.payload_b
  /\ snd (all 7 (fst (set "s3" Samples.payload_b 5 Samples.two_records)))
     = Value [("s1", Samples.payload_a); ("s2", Samples.payload_b);
              ("s3", Samples.payload_b)].
Proof.
  assert (Hobj : JSMap.wf Samples.payload_b)
    by (repeat constructor; simpl; tauto).
  destruct (set_then_all "s3" Samples.payload_b 5 7 Samples.two_records Hobj)
    as (pairs & Hpairs & _).
  split; [exact Hobj|]. rewrite Hpairs. inversion Hpairs. reflexivity.
Defined.

(** ** What the cleanup pass reclaims *)

Lemma sessions_destroy_other sid sid' st :
  sid <> sid' ->
  JSMap.get sid' (sessions (fst (destroy sid st)))
  = JSMap.get sid' (sessions st).
Proof.
  intros Hne. unfold destroy.
  destruct (JSMap.get sid (sessions st)); simpl; auto.
  now apply get_delete_neq.
Qed.

Lemma cleanup_loop_spares now pending st sid :
  (forall e, In (e, sid) pending -> now < e) ->
  JSMap.get sid (sessions (cleanup_loop now pending st))
  = JSMap.get sid (sessions st).
Proof.
  revert st. induction pending as [|[e0 s0] rest IH]; intros st Hlate; simpl;
    auto.
  assert (Hrest : forall e, In (e, sid) rest -> now < e)
    by (intros e Hin; apply Hlate; now right).
  destruct (JSMap.has e0 (expirationIndex st)); auto.
  destruct (Z.leb_spec e0 now) as [Hdue|_]; auto.
  rewrite IH by assumption. simpl.
  apply sessions_destroy_other. intros ->.
  specialize (Hlate e0 (or_introl eq_refl)). lia.
Qed.

(** The cleanup pass removes a record only through an index entry that is
    due and names the record's id: the record of an id that no due entry
    names is left as it is, expired or not. *)
Theorem cleanup_spares_unnamed now st sid :
  (forall e, In (e, sid) (expirationIndex st) -> now < e) ->
  JSMap.get sid (sessions (cleanupSessions now st))
  = JSMap.get sid (sessions st).
Proof. apply cleanup_loop_spares. Qed.

(** An instance: ["s1"] and ["s2"] were set in the same millisecond, the
    index names ["s2"] only; the pass at 200 leaves the expired record of
    ["s1"] in the primary map. *)
Lemma cleanup_spares_unnamed_witness :
  (forall e, In (e, "s1") (expirationIndex Samples.same_instant) -> 200 < e)
  /\ expires_of "s1" Samples.same_instant = Some 100
  /\ expires_of "s1" (cleanupSessions 200 Samples.same_instant) = Some 100
  /\ expires_of "s2" (cleanupSessions 200 Samples.same_instant) = None.
Proof.
  assert (Hnone : forall e,
             In (e, "s1") (expirationIndex Samples.same_instant) -> 200 < e).
  { intros e [Heq|[]]. discriminate. }
  split; [exact Hnone|]. split; [reflexivity|]. split; [|reflexivity].
  unfold expires_of.
  now rewrite (cleanup_spares_unnamed 200 Samples.same_instant "s1" Hnone).
Defined.

(** The cleanup pass trusts the index: when the first index entry is due,
    the record of the id it names is destroyed, also when that record was
    set again since and is not expired. *)
Theorem cleanup_destroys_refreshed_record now st e sid rest sd :
  expirationIndex st = (e, sid) :: rest ->
  e <= now ->
  JSMap.get sid (sessions st) = Some sd ->
  now < expires sd ->
  get sid now st = (st, Value (data sd))
  /\ JSMap.get sid (sessions (cleanupSessions now st)) = None
  /\ snd (get sid now (cleanupSessions now st)) = NoValue.
Proof.
  intros Hidx Hdue Hsd Hlive.
  assert (Hgone : JSMap.get sid (sessions (cleanupSessions now st)) = None).
  { unfold cleanupSessions. rewrite Hidx. simpl.
    unfold JSMap.has. rewrite Hidx. simpl. rewrite Z.eqb_refl.
    destruct (Z.leb_spec e now) as [_|Hc]; [|lia].
    match goal with
    | |- JSMap.get _ (sessions ?s) = None =>
        destruct (JSMap.get sid (sessions s)) as [d|] eqn:Hg; auto
    end.
    apply sessions_cleanup_loop in Hg. simpl in Hg.
    unfold destroy in Hg. rewrite Hsd in Hg. simpl in Hg.
    now rewrite get_delete_eq in Hg. }
  split; [|split; auto].
  - pose proof (get_cases sid now st) as Hc. rewrite Hsd in Hc.
    apply Hc. lia.
  - unfold get. now rewrite Hgone.
Qed.

(** An instance: ["s1"] set at 0 and again at 50 expires at 150; the pass
    at 120 follows the entry [100 -> "s1"] and destroys it. *)
Lemma cleanup_destroys_refreshed_record_witness :
  expirationIndex MoreSamples.set_twice = [(100, "s1"); (150, "s1")]
  /\ expires_of "s1" MoreSamples.set_twice = Some 150
  /\ snd (get "s1" 120 MoreSamples.set_twice) = Value Samples.payload_b
  /\ snd (get "s1" 120 (cleanupSessions 120 MoreSamples.set_twice))
     = NoValue.
Proof.
  destruct (cleanup_destroys_refreshed_record 120 MoreSamples.set_twice
              100 "s1" [(150, "s1")]
              {| data := Samples.payload_b; expires := 150 |}
              eq_refl) as (Hhit & _ & Hmiss);
    [vm_compute; discriminate | reflexivity | reflexivity |].
  split; [reflexivity|]. split; [reflexivity|].
  split; [now rewrite Hhit | exact Hmiss].
Defined.

(** ** [rebuildIndex] and the passes after it *)

Lemma index_rebuildIndex now st e sid :
  JSMap.wf (sessions st) ->
  In (e, sid) (expirationIndex (rebuildIndex now st)) ->
  exists sd,
    JSMap.get sid (sessions st) = Some sd /\ now < expires sd
    /\ expires sd = e.
Proof.
  intros Hwf. rewrite rebuildIndex_fields. simpl. intros Hin.
  apply rebuild_loop_index_sound in Hin as [[]|[sd [Hin [Hlive He]]]].
  exists sd. repeat split; auto. now apply In_get.
Qed.

(** Right after [rebuildIndex] the cleanup pass cannot destroy a live
    record: every record of the rebuilt store whose expiration time lies
    after [now] is still there after the pass. *)
Theorem cleanup_after_rebuild_keeps_live t now st sid sd :
  JSMap.wf (sessions st) ->
  JSMap.get sid (sessions (rebuildIndex t st)) = Some sd ->
  now < expires sd ->
  JSMap.get sid (sessions (cleanupSessions now (rebuildIndex t st)))
  = Some sd.
Proof.
  intros Hwf Hsd Hlive.
  unfold cleanupSessions. rewrite cleanup_loop_spares; auto.
  intros e Hin.
  apply index_rebuildIndex in Hin as [sd' [Hsd' [_ <-]]]; auto.
  rewrite sessions_rebuildIndex in Hsd by assumption.
  apply get_filter in Hsd as [Hsd _]; auto.
  congruence.
Qed.

(** An instance: after the rebuild at 6 the pass at 102 keeps ["s1"], due
    at 105. *)
Lemma cleanup_after_rebuild_keeps_live_witness :
  JSMap.wf (sessions Samples.stale_index)
  /\ expires_of "s1"
       (cleanupSessions 102 (rebuildIndex 6 Samples.stale_index))
     = Some 105.
Proof.
  assert (Hwf : JSMap.wf (sessions Samples.stale_index)).
  { repeat constructor; simpl; intuition discriminate. }
  split; [exact Hwf|]. unfold expires_of.
  now rewrite (cleanup_after_rebuild_keeps_live 6 102 Samples.stale_index
                 "s1" {| data := Samples.payload_a; expires := 105 |}
                 Hwf eq_refl eq_refl).
Defined.

Lemma store_ext (a b : MemoryStore.t) :
  sessions a = sessions b -> expirationIndex a = expirationIndex b ->
  maxAge a = maxAge b -> a = b.
Proof. destruct a, b; simpl; intros; subst; auto. Qed.

(** The index the loop builds depends on the live entries alone. *)
Lemma rebuild_loop_index_live t pending ss ss' idx :
  snd (rebuild_loop t pending ss idx)
  = snd (rebuild_loop t (filter (fun e => t <? expires (snd e)) pending)
           ss' idx).
Proof.
  revert ss ss' idx.
  induction pending as [|[sid sd] rest IH]; intros ss ss' idx; simpl; auto.
  destruct (t <? expires sd) eqn:Hlive; simpl; rewrite ?Hlive; auto.
Qed.

(** A rebuild absorbs every earlier one: rebuilding at [t] and then at a
    later reading [t'] leaves the store that a single rebuild at [t'] leaves;
    in particular a second rebuild at the same reading changes nothing. *)
Theorem rebuildIndex_absorbs t t' st :
  JSMap.wf (sessions st) ->
  t <= t' ->
  rebuildIndex t' (rebuildIndex t st) = rebuildIndex t' st.
Proof.
  intros Hwf Hle.
  assert (Hwf1 : JSMap.wf (sessions (rebuildIndex t st))).
  { rewrite sessions_rebuildIndex by assumption.
    now apply NoDup_keys_filter. }
  assert (Hlater : forall x : string * SessionData,
             (t' <? expires (snd x)) = true -> (t <? expires (snd x)) = true)
    by (intros x; rewrite !Z.ltb_lt; lia).
  apply store_ext.
  - rewrite !sessions_rebuildIndex by assumption.
    now apply filter_twice.
  - rewrite (rebuildIndex_fields t' (rebuildIndex t st)),
            (rebuildIndex_fields t' st). simpl.
    rewrite (rebuild_loop_index_live t' (sessions (rebuildIndex t st))
               _ (sessions st)).
    rewrite (rebuild_loop_index_live t' (sessions st) _ (sessions st)).
    rewrite sessions_rebuildIndex by assumption.
    now rewrite filter_twice.
  - rewrite !rebuildIndex_fields. reflexivity.
Qed.

Lemma rebuildIndex_absorbs_witness :
  JSMap.wf (sessions Samples.stale_index)
  /\ 6 <= 103
  /\ rebuildIndex 103 (rebuildIndex 6 Samples.stale_index)
     = {| sessions :=
            [("s1", {| data := Samples.payload_a; expires := 105 |})];
          expirationIndex := [(105, "s1")];
          maxAge := 100 |}.
Proof.
  assert (Hwf : JSMap.wf (sessions Samples.stale_index)).
  { repeat constructor; simpl; intuition discriminate. }
  assert (Hle : 6 <= 103) by (vm_compute; discriminate).
  split; [exact Hwf|]. split; [exact Hle|].
  now rewrite (rebuildIndex_absorbs 6 103 Samples.stale_index Hwf Hle).
Defined.

(** An instance of the pass on a history without a rebuild: the pass at 103
    leaves the entry due at 107 only. *)
Lemma cleanup_without_rebuild_witness :
  Forall (fun call => snd call <> OpRebuild) MoreSamples.calls_without_rebuild
  /\ clock_monotone 0 MoreSamples.calls_without_rebuild
  /\ JSMap.keys
       (expirationIndex
          (cleanupSessions 103
             (run MoreSamples.calls_without_rebuild (new (Some 100)))))
     = [107]
  /\ forall e,
       In e (JSMap.keys
               (expirationIndex
                  (cleanupSessions 103
                     (run MoreSamples.calls_without_rebuild
                          (new (Some 100)))))) ->
       103 < e.
Proof.
  assert (Hops : Forall (fun call => snd call <> OpRebuild)
                        MoreSamples.calls_without_rebuild)
    by (repeat constructor; simpl; discriminate).
  assert (Hclock : clock_monotone 0 MoreSamples.calls_without_rebuild)
    by (simpl; repeat split; vm_compute; discriminate).
  split; [exact Hops|]. split; [exact Hclock|]. split; [reflexivity|].
  exact (cleanup_without_rebuild (Some 100) 0
           MoreSamples.calls_without_rebuild 103 Hops Hclock).
Defined.

End MemoryMore.

(** * The timers of the memory backend *)

Module TimerFacts.
Import MemoryTimers.

Lemma armed_below_next tm id x :
  wf tm -> JSMap.get id (armed tm) = Some x -> (id < next_id tm)%nat.
Proof.
  intros [_ Hb] Hg. apply Hb. eapply In_keys, get_Some_In; eauto.
Qed.

Lemma wf_setInterval task period tm :
  wf tm -> wf (fst (setInterval task period tm)).
Proof.
  intros [Hwf Hb]. split; simpl.
  - now apply wf_set.
  - intros id Hin. apply In_keys_set in Hin as [->|Hin]; [lia|].
    apply Hb in Hin. lia.
Qed.

Lemma wf_clearInterval id tm : wf tm -> wf (clearInterval id tm).
Proof.
  intros [Hwf Hb]. split; simpl.
  - now apply wf_delete.
  - intros id' Hin. apply In_keys_delete in Hin as [Hin _]. auto.
Qed.

Lemma consistent_start tm0 :
  wf tm0 -> forall cleanup index, consistent tm0 (new cleanup index) tm0.
Proof.
  intros Hwf cleanup index. unfold consistent, own. simpl.
  split; [exact Hwf|]. split; [lia|]. split; [auto|]. split.
  - intros id x Hid. split.
    + intros Hg. apply (armed_below_next _ _ _ Hwf) in Hg. lia.
    + intros [[Hc _]|[Hc _]]; discriminate.
  - intros id x [[Hc _]|[Hc _]]; discriminate.
Qed.

(** Arming a timer for a loop whose id field is [null]. *)
Lemma consistent_arm tm0 h tm h' task period :
  consistent tm0 h tm ->
  (forall id x, own h' id x <->
                (id = next_id tm /\ x = (task, period)) \/ own h id x) ->
  consistent tm0 h' (fst (setInterval task period tm)).
Proof.
  intros (Hwf & Hle & Hframe & Hown & Hlow) Hown'.
  unfold consistent. simpl.
  split; [apply (wf_setInterval task period tm Hwf)|].
  split; [lia|]. repeat apply conj.
  - intros id Hid. rewrite get_set_neq by lia. auto.
  - intros id x Hid. rewrite Hown'.
    destruct (Nat.eq_dec (next_id tm) id) as [<-|Hne].
    + rewrite get_set_eq. split.
      * intros [= <-]. now left.
      * intros [[_ ->]|Ho]; auto.
        apply Hown in Ho; auto. apply (armed_below_next _ _ _ Hwf) in Ho. lia.
    + rewrite get_set_neq by assumption. rewrite Hown by assumption.
      split; [now right|]. intros [[Heq _]|Ho]; auto. congruence.
  - intros id x Ho. apply Hown' in Ho as [[-> _]|Ho]; eauto.
Qed.

(** Disarming the timer an id field names. *)
Lemma consistent_disarm tm0 h tm h' id0 x0 :
  consistent tm0 h tm ->
  own h id0 x0 ->
  (forall id x, own h' id x <-> id <> id0 /\ own h id x) ->
  consistent tm0 h' (clearInterval id0 tm).
Proof.
  intros (Hwf & Hle & Hframe & Hown & Hlow) Ho0 Hown'.
  pose proof (Hlow _ _ Ho0) as Hlow0.
  unfold consistent. simpl.
  split; [apply (wf_clearInterval id0 tm Hwf)|].
  split; [exact Hle|]. repeat apply conj.
  - intros id Hid. rewrite get_delete_neq by lia. auto.
  - intros id x Hid. rewrite Hown'.
    destruct (Nat.eq_dec id0 id) as [<-|Hne].
    + rewrite get_delete_eq. split; [discriminate|]. intros [Hc _]. congruence.
    + rewrite get_delete_neq by assumption. rewrite Hown by assumption.
      split; [split; auto|tauto].
  - intros id x Ho. apply Hown' in Ho as [_ Ho]. eauto.
Qed.

Lemma own_tasks_differ tm0 h tm id :
  consistent tm0 h tm ->
  cleanupIntervalId h = Some id -> indexRebuildIntervalId h = Some id -> False.
Proof.
  intros (Hwf & Hle & Hframe & Hown & Hlow) Hc Hi.
  assert (H1 : own h id (RunCleanup, cleanupInterval h)) by (left; auto).
  assert (H2 : own h id (RunRebuild, indexInterval h)) by (right; auto).
  pose proof (Hlow _ _ H1) as Hid.
  apply Hown in H1; auto. apply Hown in H2; auto. congruence.
Qed.

Lemma consistent_step tm0 call h tm :
  consistent tm0 h tm ->
  consistent tm0 (fst (step call (h, tm))) (snd (step call (h, tm))).
Proof.
  intros Hc. destruct call; simpl.
  - unfold startCleanup.
    destruct (cleanupIntervalId h) as [c|] eqn:Hid; simpl; auto.
    apply (consistent_arm tm0 h tm _ RunCleanup (cleanupInterval h) Hc).
    intros id x. unfold own. simpl. rewrite Hid.
    intuition (try congruence).
  - unfold stopCleanup.
    destruct (cleanupIntervalId h) as [c|] eqn:Hid; simpl; auto.
    apply (consistent_disarm tm0 h tm _ c (RunCleanup, cleanupInterval h) Hc).
    + left. auto.
    + intros id x. unfold own. simpl. rewrite Hid. split.
      * intros [[Hn _]|[Hi Hx]]; [discriminate|].
        split; [|now right]. intros ->.
        exact (own_tasks_differ tm0 h tm c Hc Hid Hi).
      * intros [Hne [[Hs _]|Hr]]; [congruence|now right].
  - unfold startIndexRebuild.
    destruct (indexRebuildIntervalId h) as [c|] eqn:Hid; simpl; auto.
    apply (consistent_arm tm0 h tm _ RunRebuild (indexInterval h) Hc).
    intros id x. unfold own. simpl. rewrite Hid.
    intuition (try congruence).
  - unfold stopIndexRebuild.
    destruct (indexRebuildIntervalId h) as [c|] eqn:Hid; simpl; auto.
    apply (consistent_disarm tm0 h tm _ c (RunRebuild, indexInterval h) Hc).
    + right. auto.
    + intros id x. unfold own. simpl. rewrite Hid. split.
      * intros [[Hi Hx]|[Hn _]]; [|discriminate].
        split; [|now left]. intros ->.
        exact (own_tasks_differ tm0 h tm c Hc Hi Hid).
      * intros [Hne [Hl|[Hs _]]]; [now left|congruence].
Qed.

Lemma consistent_run tm0 calls state :
  consistent tm0 (fst state) (snd state) ->
  consistent tm0 (fst (run calls state)) (snd (run calls state)).
Proof.
  revert state. induction calls as [|call rest IH]; intros [h tm] Hc; simpl;
    auto.
  apply IH. now apply consistent_step.
Qed.

Lemma periods_step call h tm :
  cleanupInterval (fst (step call (h, tm))) = cleanupInterval h
  /\ indexInterval (fst (step call (h, tm))) = indexInterval h.
Proof.
  destruct call; simpl;
    unfold startCleanup, stopCleanup, startIndexRebuild, stopIndexRebuild;
    destruct (cleanupIntervalId h), (indexRebuildIntervalId h); simpl; auto.
Qed.

Lemma periods_run calls state :
  cleanupInterval (fst (run calls state)) = cleanupInterval (fst state)
  /\ indexInterval (fst (run calls state)) = indexInterval (fst state).
Proof.
  revert state. induction calls as [|call rest IH]; intros [h tm]; simpl; auto.
  destruct (IH (step call (h, tm))) as [-> ->]. apply periods_step.
Qed.

(** Whatever sequence of [startCleanup], [stopCleanup], [startIndexRebuild]
    and [stopIndexRebuild] is called on a new store, the timers the store
    has armed are the ones its two id fields name: at most one cleanup timer
    and at most one rebuild timer, each with the period fixed at
    construction; a second start arms nothing, a stop disarms, and the
    timers that were armed before the store existed are left alone. *)
Theorem timers_follow_id_fields calls cleanup index tm0 :
  wf tm0 ->
  let h := fst (run calls (new cleanup index, tm0)) in
  let tm := snd (run calls (new cleanup index, tm0)) in
  (forall id, (id < next_id tm0)%nat ->
      JSMap.get id (armed tm) = JSMap.get id (armed tm0))
  /\ (forall id x, (next_id tm0 <= id)%nat ->
        (JSMap.get id (armed tm) = Some x <->
         (cleanupIntervalId h = Some id
          /\ x = (RunCleanup, interval_option cleanup 300000))
         \/ (indexRebuildIntervalId h = Some id
             /\ x = (RunRebuild, interval_option index 60000))))
  /\ wf tm.
Proof.
  intros Hwf h tm.
  destruct (consistent_run tm0 calls (new cleanup index, tm0)
              (consistent_start tm0 Hwf cleanup index))
    as (Hwf' & _ & Hframe & Hown & _).
  destruct (periods_run calls (new cleanup index, tm0)) as [Hp1 Hp2].
  simpl in Hp1, Hp2. fold h in Hp1, Hp2. fold h in Hown. fold tm in Hown, Hframe, Hwf'.
  split; [exact Hframe|]. split; [|exact Hwf'].
  intros id x Hid. split.
  - intros Hg. apply Hown in Hg; auto. unfold own in Hg.
    now rewrite Hp1, Hp2 in Hg.
  - intros Ho. apply Hown; auto. unfold own. now rewrite Hp1, Hp2.
Qed.

(** An instance: a runtime with one timer of its own; the cleanup loop is
    started twice, the rebuild loop started and stopped. Two timers are
    armed, the old one and the cleanup timer. *)
Lemma timers_follow_id_fields_witness :
  wf MoreSamples.one_timer
  /\ run [StartCleanup; StartIndexRebuild; StartCleanup; StopIndexRebuild]
         (new None (Some 7), MoreSamples.one_timer)
     = ({| cleanupInterval := 300000; indexInterval := 7;
           cleanupIntervalId := Some 4%nat;
           indexRebuildIntervalId := None |},
        {| next_id := 6;
           armed := [(2%nat, (RunRebuild, 9)); (4%nat, (RunCleanup, 300000))] |})
  /\ JSMap.get 5%nat
       (armed (snd (run [StartCleanup; StartIndexRebuild; StartCleanup;
                         StopIndexRebuild]
                        (new None (Some 7), MoreSamples.one_timer))))
     = None.
Proof.
  assert (Hwf : wf MoreSamples.one_timer).
  { split.
    - repeat constructor; simpl; tauto.
    - intros id [<-|[]]. repeat constructor. }
  split; [exact Hwf|]. split; [reflexivity|].
  destruct (timers_follow_id_fields
              [StartCleanup; StartIndexRebuild; StartCleanup;
               StopIndexRebuild] None (Some 7) MoreSamples.one_timer Hwf)
    as (_ & Hown & _).
  destruct (JSMap.get 5%nat
              (armed (snd (run [StartCleanup; StartIndexRebuild;
                                StartCleanup; StopIndexRebuild]
                               (new None (Some 7), MoreSamples.one_timer)))))
    as [x|] eqn:Hg; [|reflexivity].
  apply Hown in Hg; [|repeat constructor].
  destruct Hg as [[Hc _]|[Hc _]]; discriminate.
Defined.

End TimerFacts.

(** * The file backend: reading, writing and listing *)

Module FileMore.
Import FileStore FileStoreIO.

Lemma set_same {K V} `{EqKey K} (k : K) (v : V) (m : JSMap.t K V) :
  JSMap.get k m = Some v -> JSMap.set k v m = m.
Proof.
  induction m as [|[k0 v0] rest IH]; simpl; [discriminate|].
  destruct (keqb_spec k k0) as [->|Hn].
  - now intros [= ->].
  - intros Hg. now rewrite IH.
Qed.

Lemma set_set {K V} `{EqKey K} (k : K) (v v' : V) (m : JSMap.t K V) :
  JSMap.set k v (JSMap.set k v' m) = JSMap.set k v m.
Proof.
  induction m as [|[k0 v0] rest IH]; simpl.
  - now rewrite keqb_refl.
  - destruct (keqb_spec k k0) as [->|Hn]; simpl.
    + now rewrite keqb_refl.
    + rewrite (keqb_neq _ _ Hn). now rewrite IH.
Qed.

Section ReadPath.
Context {rt : NodeRuntime}.

(** [get] writes nothing: it leaves the file system as it is, except that
    it unlinks the file of the record it was asked for when it replies "no
    record" for an expired one. *)
Theorem get_touches_only_own_file sid now store fs :
  fst (get sid now store fs) = fs
  \/ (fst (get sid now store fs) = fst (unlink (getFilePath store sid) fs)
      /\ snd (get sid now store fs) = NoValue).
Proof.
  unfold get.
  destruct (readFile (getFilePath store sid) fs) as [data|code].
  - destruct (JSON_parse data) as [sessionData|]; [|now left].
    unfold get_parsed.
    destruct (prop sessionData "expires") as [recordExpires|]; [|now left].
    destruct (truthy recordExpires && date_le recordExpires now).
    + right. simpl. split; auto. apply FileFacts.fst_destroy.
    + destruct (revive sessionData); now left.
  - destruct (String.eqb code "ENOENT"); now left.
Qed.

(** A file whose text parses but is not a record is reported like a file
    that does not parse: [null], or a document whose [expires] is falsy and
    that has no [session] (such as an empty object), gets the reply "Failed
    to parse session data", not "no record". *)
Theorem get_rejects_non_record sid now store fs data doc :
  readFile (getFilePath store sid) fs = inl data ->
  JSON_parse data = Some doc ->
  (prop doc "expires" = None
   \/ exists recordExpires session,
        prop doc "expires" = Some recordExpires
        /\ truthy recordExpires = false
        /\ prop doc "session" = Some session
        /\ (session = JUndefined \/ session = JNull)) ->
  get sid now store fs = (fs, Failure "Failed to parse session data").
Proof.
  intros Hread Hparse Hdoc. unfold get. rewrite Hread, Hparse.
  unfold get_parsed.
  destruct Hdoc as [->|(ex & session & -> & -> & Hs & Hnull)]; auto.
  simpl. unfold revive. rewrite Hs.
  destruct Hnull as [-> | ->]; reflexivity.
Qed.

End ReadPath.

Lemma get_rejects_non_record_witness :
  get (rt := SampleIO.read_runtime) "void" 500 SampleIO.store SampleIO.disk_a
  = (SampleIO.disk_a, Failure "Failed to parse session data").
Proof.
  apply (get_rejects_non_record (rt := SampleIO.read_runtime) "void" 500
           SampleIO.store SampleIO.disk_a "null" JNull);
    [reflexivity | reflexivity | now left].
Defined.

Section WritePath.
Context {io : NodeIO}.

(** A payload without a cookie comes back from the file with one: what
    [set] writes for an object whose [cookie] is missing or falsy, [get]
    hands back before the expiry, [now + ttl * 1000], as that object with
    [cookie] set to [null]. The runtime is asked to read what was written,
    to parse what it printed and to read the date it wrote. *)
Theorem set_get_adds_null_cookie
  sid sprops cookie now now' store fs fs' iso :
  let session := JObj sprops in
  let stored := JObj (JSMap.set "cookie" JNull sprops) in
  let doc := JObj [("sid", JStr sid); ("session", stored);
                   ("expires", JStr iso)] in
  JSMap.wf sprops ->
  prop session "cookie" = Some cookie ->
  truthy cookie = false ->
  toISOString (now + ttl store * 1000) = Some iso ->
  iso <> "" ->
  Date_of (JStr iso) = Some (now + ttl store * 1000) ->
  writeFile (getFilePath store sid) (JSON_stringify doc) fs = (fs', None) ->
  readFile (getFilePath store sid) fs' = inl (JSON_stringify doc) ->
  JSON_parse (JSON_stringify doc) = Some doc ->
  now' < now + ttl store * 1000 ->
  set sid session now store fs = Some (fs', NoValue)
  /\ get sid now' store fs' = (fs', Value stored).
Proof.
  intros session stored doc Hwf Hcookie Hfalsy Hiso Hne Hdate Hwrite Hread
         Hparse Hlive.
  split.
  - unfold set, document, cookie_for_disk. rewrite Hcookie, Hfalsy, Hiso.
    unfold spread_value. simpl own_props.
    rewrite (MemoryFacts.spread_object _ Hwf).
    fold stored. fold doc. now rewrite Hwrite.
  - unfold get. rewrite Hread, Hparse. unfold get_parsed, doc. simpl.
    unfold date_le. rewrite Hdate.
    destruct (String.eqb_spec iso "") as [->|_]; [congruence|]. simpl.
    destruct (Z.leb_spec (now + ttl store * 1000) now'); [lia|].
    unfold revive. simpl. rewrite get_set_eq. reflexivity.
Qed.

(** A payload with a cookie whose [expires] is a date makes the round trip
    unchanged: [set] writes the date as text, [get] turns the text back into
    the date, and hands back the payload that was set. *)
Theorem set_get_roundtrip_cookie
  sid sprops cprops time now now' store fs fs' iso cookieIso :
  let session := JObj sprops in
  let doc :=
    JObj [("sid", JStr sid);
          ("session",
           JObj (JSMap.set "cookie"
                   (JObj (JSMap.set "expires" (JStr cookieIso) cprops))
                   sprops));
          ("expires", JStr iso)] in
  JSMap.wf sprops -> JSMap.wf cprops ->
  JSMap.get "cookie" sprops = Some (JObj cprops) ->
  JSMap.get "expires" cprops = Some (JDate (Some time)) ->
  toISOString time = Some cookieIso -> cookieIso <> "" ->
  Date_of (JStr cookieIso) = Some time ->
  toISOString (now + ttl store * 1000) = Some iso -> iso <> "" ->
  Date_of (JStr iso) = Some (now + ttl store * 1000) ->
  writeFile (getFilePath store sid) (JSON_stringify doc) fs = (fs', None) ->
  readFile (getFilePath store sid) fs' = inl (JSON_stringify doc) ->
  JSON_parse (JSON_stringify doc) = Some doc ->
  now' < now + ttl store * 1000 ->
  set sid session now store fs = Some (fs', NoValue)
  /\ get sid now' store fs' = (fs', Value session).
Proof.
  intros session doc Hwf Hwfc Hcookie Hexp Hciso Hcne Hcdate Hiso Hne Hdate
         Hwrite Hread Hparse Hlive.
  split.
  - unfold set, document, cookie_for_disk. simpl prop.
    rewrite Hcookie. simpl truthy. cbv iota. simpl prop.
    rewrite Hexp. simpl truthy. cbv iota. rewrite Hciso, Hiso.
    unfold spread_value. simpl own_props.
    rewrite (MemoryFacts.spread_object _ Hwf),
            (MemoryFacts.spread_object _ Hwfc).
    fold doc. now rewrite Hwrite.
  - unfold get. rewrite Hread, Hparse. unfold get_parsed, doc. simpl.
    unfold date_le. rewrite Hdate.
    destruct (String.eqb_spec iso "") as [->|_]; [congruence|]. simpl.
    destruct (Z.leb_spec (now + ttl store * 1000) now'); [lia|].
    unfold revive. simpl. rewrite get_set_eq. simpl.
    rewrite get_set_eq. simpl.
    destruct (String.eqb_spec cookieIso "") as [->|_]; [congruence|]. simpl.
    rewrite Hcdate, !set_set.
    rewrite (set_same "expires" _ cprops Hexp).
    now rewrite (set_same "cookie" _ sprops Hcookie).
Qed.

(** [set] throws, and writes nothing, when the cookie of the payload has an
    [expires] that is truthy and is not a valid date, for one a text such as
    the one [all] hands back: there is no [toISOString] to call. *)
Theorem set_throws_on_non_date_expiry
  sid session cookie cookieExpires now store fs :
  prop session "cookie" = Some cookie ->
  truthy cookie = true ->
  prop cookie "expires" = Some cookieExpires ->
  truthy cookieExpires = true ->
  (forall time, cookieExpires <> JDate (Some time)) ->
  set sid session now store fs = None.
Proof.
  intros Hcookie Htc Hexp Hte Hdate.
  unfold set, document, cookie_for_disk. rewrite Hcookie, Htc, Hexp, Hte.
  destruct cookieExpires as [| | | | |[time|]| |]; auto.
  now destruct (Hdate time).
Qed.

Lemma get_expired sid now store fs data doc iso time :
  readFile (getFilePath store sid) fs = inl data ->
  JSON_parse data = Some doc ->
  prop doc "expires" = Some (JStr iso) -> iso <> "" ->
  Date_of (JStr iso) = Some time -> time <= now ->
  get sid now store fs = (fst (unlink (getFilePath store sid) fs), NoValue).
Proof.
  intros Hread Hparse Hexp Hne Hdate Hdue. unfold get.
  rewrite Hread, Hparse. unfold get_parsed. rewrite Hexp.
  unfold date_le. rewrite Hdate. simpl.
  destruct (String.eqb_spec iso "") as [->|_]; [congruence|]. simpl.
  destruct (Z.leb_spec time now); [|lia].
  now rewrite FileFacts.fst_destroy.
Qed.

(** [touch] creates no record and does not throw. Without a file it replies
    without a value and leaves the file system alone. On an expired record
    it unlinks the file and writes nothing. On a live record with a payload
    that makes [set] throw, it replies with the error "Failed to parse
    session data", the file untouched. *)
Theorem touch_outcomes sid session now store fs :
  (readFile (getFilePath store sid) fs = inr "ENOENT" ->
     touch sid session now store fs = (fs, NoValue))
  /\ (forall data doc iso time,
        readFile (getFilePath store sid) fs = inl data ->
        JSON_parse data = Some doc ->
        prop doc "expires" = Some (JStr iso) -> iso <> "" ->
        Date_of (JStr iso) = Some time -> time <= now ->
        touch sid session now store fs
        = (fst (unlink (getFilePath store sid) fs), NoValue))
  /\ (forall existing,
        get sid now store fs = (fs, Value existing) ->
        truthy existing = true ->
        set sid session now store fs = None ->
        touch sid session now store fs
        = (fs, Failure "Failed to parse session data")).
Proof.
  repeat apply conj.
  - intros Hread. unfold touch, get. now rewrite Hread.
  - intros data doc iso time Hread Hparse Hexp Hne Hdate Hdue.
    unfold touch.
    now rewrite (get_expired sid now store fs data doc iso time).
  - intros existing Hget Htruthy Hset. unfold touch.
    now rewrite Hget, Htruthy, Hset.
Qed.

(** ** [all] and [length] *)

Lemma read_sessions_names store fs files entries :
  read_sessions store fs files = inl entries ->
  map fst entries = map (fun file => path_basename file ".json") files.
Proof.
  revert entries. induction files as [|file rest IH]; intros entries; simpl.
  - now intros [= <-].
  - unfold read_session.
    destruct (readFile (path_join (path store) file) fs) as [data|code];
      [|discriminate].
    destruct (JSON_parse data) as [doc|]; [|discriminate].
    destruct (prop doc "session") as [session|]; [|discriminate].
    destruct (read_sessions store fs rest) as [tail|e]; [|discriminate].
    intros [= <-]. simpl. f_equal. auto.
Qed.

(** When [all] succeeds it hands back one pair for every name [readdir]
    lists, in that order, named by the file without its [.json] ending:
    as many pairs as [length] counts, the expired records included. *)
Theorem all_counts_like_length store fs entries :
  all store fs = inl entries ->
  exists files,
    readdir (path store) fs = inl files
    /\ map fst entries = map (fun file => path_basename file ".json") files
    /\ length store fs = inl (List.length entries).
Proof.
  unfold all, length.
  destruct (readdir (path store) fs) as [files|code]; [|discriminate].
  intros Hall. exists files. split; auto.
  apply read_sessions_names in Hall. split; auto.
  apply (f_equal (@List.length string)) in Hall.
  rewrite !length_map in Hall. now rewrite Hall.
Qed.

Lemma read_sessions_fail store fs files file e :
  In file files -> read_session store fs file = inr e ->
  exists e', read_sessions store fs files = inr e'.
Proof.
  induction files as [|f rest IH]; simpl; [tauto|].
  intros [->|Hin] Hfail.
  - rewrite Hfail. eauto.
  - destruct (read_session store fs f) as [entry|e0]; eauto.
    destruct (IH Hin Hfail) as [e' ->]. eauto.
Qed.

(** [all] gives no partial result: one listed file that cannot be read or
    does not parse makes the whole call fail, while [length] goes on
    counting that file. *)
Theorem all_fails_as_a_whole store fs files file :
  readdir (path store) fs = inl files ->
  In file files ->
  match readFile (path_join (path store) file) fs with
  | inl data => JSON_parse data = None
  | inr _ => True
  end ->
  (exists e, all store fs = inr e)
  /\ length store fs = inl (List.length files).
Proof.
  intros Hdir Hin Hbad. unfold all, length. rewrite Hdir. split; auto.
  assert (Hfail : exists e, read_session store fs file = inr e).
  { unfold read_session.
    destruct (readFile (path_join (path store) file) fs) as [data|code];
      [rewrite Hbad|]; eauto. }
  destruct Hfail as [e Hfail].
  eapply read_sessions_fail; eauto.
Qed.

End WritePath.

(** An instance: ["s1"] set at time 100 with a [ttl] of one second and read
    at 500. *)
Lemma set_get_adds_null_cookie_witness :
  set (io := SampleIO.runtime) "s1" SampleIO.session_a 100 SampleIO.store []
  = Some (SampleIO.disk_one, NoValue)
  /\ get (rt := SampleIO.read_runtime) "s1" 500 SampleIO.store
         SampleIO.disk_one
     = (SampleIO.disk_one, Value (JObj [("a", JNum 1); ("cookie", JNull)])).
Proof.
  apply (set_get_adds_null_cookie (io := SampleIO.runtime)
           "s1" [("a", JNum 1)] JUndefined 100 500 SampleIO.store []
           SampleIO.disk_one "T1100");
    try reflexivity.
  - repeat constructor; simpl; tauto.
  - discriminate.
Defined.

(** An instance: a payload with a cookie that expires at 5000. *)
Lemma set_get_roundtrip_cookie_witness :
  get (rt := SampleIO.read_runtime) "s2" 500 SampleIO.store
      [("sessions/s2.json", inl (SampleIO.print_json SampleIO.document_c))]
  = ([("sessions/s2.json", inl (SampleIO.print_json SampleIO.document_c))],
     Value SampleIO.session_c).
Proof.
  apply (set_get_roundtrip_cookie (io := SampleIO.runtime)
           "s2"
           [("a", JNum 1);
            ("cookie",
             JObj [("path", JStr "/"); ("expires", JDate (Some 5000))])]
           [("path", JStr "/"); ("expires", JDate (Some 5000))]
           5000 100 500 SampleIO.store []
           [("sessions/s2.json",
             inl (SampleIO.print_json SampleIO.document_c))]
           "T1100" "T5000");
    try reflexivity; try discriminate;
    repeat constructor; simpl; intuition discriminate.
Defined.

(** An instance: the cookie's [expires] is a text. *)
Lemma set_throws_on_non_date_expiry_witness :
  set (io := SampleIO.runtime) "s1"
      (JObj [("cookie", JObj [("expires", JStr "T5000")])])
      100 SampleIO.store []
  = None.
Proof.
  apply (set_throws_on_non_date_expiry (io := SampleIO.runtime) "s1"
           (JObj [("cookie", JObj [("expires", JStr "T5000")])])
           (JObj [("expires", JStr "T5000")]) (JStr "T5000"));
    try reflexivity.
  intros time. discriminate.
Defined.

(** An instance: no file for ["s9"]; the record of ["s1"], due at 1100,
    touched at 2000; the same record touched at 500 with a payload whose
    cookie expires at a text. *)
Lemma touch_outcomes_witness :
  touch (io := SampleIO.runtime) "s9" SampleIO.session_a 500 SampleIO.store
        SampleIO.disk_one
  = (SampleIO.disk_one, NoValue)
  /\ touch (io := SampleIO.runtime) "s1" SampleIO.session_a 2000
           SampleIO.store SampleIO.disk_one
     = ([], NoValue)
  /\ touch (io := SampleIO.runtime) "s1"
           (JObj [("cookie", JObj [("expires", JStr "T5000")])])
           500 SampleIO.store SampleIO.disk_one
     = (SampleIO.disk_one, Failure "Failed to parse session data").
Proof.
  split; [|split].
  - apply (touch_outcomes (io := SampleIO.runtime) "s9" SampleIO.session_a
             500 SampleIO.store SampleIO.disk_one). reflexivity.
  - apply (proj1 (proj2
             (touch_outcomes (io := SampleIO.runtime) "s1"
                SampleIO.session_a 2000 SampleIO.store SampleIO.disk_one)))
      with (data := SampleIO.print_json SampleIO.document_a)
           (doc := SampleIO.document_a) (iso := "T1100") (time := 1100);
      try reflexivity; [discriminate | vm_compute; discriminate].
  - apply (proj2 (proj2
             (touch_outcomes (io := SampleIO.runtime) "s1"
                (JObj [("cookie", JObj [("expires", JStr "T5000")])])
                500 SampleIO.store SampleIO.disk_one)))
      with (existing := JObj [("a", JNum 1); ("cookie", JNull)]);
      reflexivity.
Defined.

(** An instance: a directory with one record. *)
Lemma all_counts_like_length_witness :
  all (io := SampleIO.runtime) SampleIO.store SampleIO.disk_one
  = inl [("s1", JObj [("a", JNum 1); ("cookie", JNull)])]
  /\ length (io := SampleIO.runtime) SampleIO.store SampleIO.disk_one
     = inl 1%nat.
Proof.
  split; [reflexivity|].
  destruct (all_counts_like_length (io := SampleIO.runtime) SampleIO.store
              SampleIO.disk_one
              [("s1", JObj [("a", JNum 1); ("cookie", JNull)])] eq_refl)
    as (files & _ & _ & Hlen).
  exact Hlen.
Defined.

(** An instance: a directory with a record and a torn file. *)
Lemma all_fails_as_a_whole_witness :
  (exists e, all (io := SampleIO.runtime) SampleIO.store SampleIO.disk_torn
             = inr e)
  /\ length (io := SampleIO.runtime) SampleIO.store SampleIO.disk_torn
     = inl 2%nat.
Proof.
  apply (all_fails_as_a_whole (io := SampleIO.runtime) SampleIO.store
           SampleIO.disk_torn ["s1.json"; "torn.json"] "torn.json");
    [reflexivity | right; now left | reflexivity].
Defined.

End FileMore.
